(** * vdsm: the multi-protocol acceptor and the readers-writer lock

    A shallow embedding of [vdsm/protocoldetector.py] (the protocol
    detector installed on every accepted connection and the acceptor that
    creates it) and of the readers-writer lock exercised by
    [tests/rwlock_test.py], with the properties stated about them.
    The helper [stats] of that test file, the pure parts of
    [lib/vdsm/network/link/iface.py] and the decisions of [main] of
    [lib/vdsm/tool/config_lvm_filter.py] follow.

    Conventions.
    - Python objects that are shared and mutated (the acceptor's list of
      detectors, the dispatchers) live in a store and are passed around as
      references, so that aliasing is visible.
    - Side effects that have no value of their own (log records, calls on
      collaborators) are appended to a trace.
    - [monotonic_time()] reads a clock kept in the store; time is counted in
      integral clock ticks.
    - An exception is a [Raise] result; the store survives it.
    - What the network does to a connection between two callbacks (bytes
      arrive, the peer resets the connection) is a step of the
      environment on the store. *)

From Stdlib Require Import ZArith String List Bool Lia.
From Stdlib.Strings Require Import Byte.
From stdpp Require Import base option list gmap strings.
From stdpp Require Import sorting.

Local Open Scope Z_scope.

(** ** Python results *)

Inductive exn :=
| SocketError (errno : Z)
| ValueError (msg : string)
| TypeError (msg : string)
| ReferenceError.

Inductive Result (A : Type) :=
| Ok (a : A)
| Raise (e : exn).
Arguments Ok {A} a.
Arguments Raise {A} e.

(** ** Detector plug-ins

    The interface documented in the acceptor's docstring: [NAME],
    [REQUIRED_SIZE], [detect(data)] and [handle_dispatcher(dispatcher,
    address)].  [handle_dispatcher] is code of the plug-in, which owns the
    socket from the call on and closes the dispatcher or changes its
    implementation.  The call is recorded in the trace with its arguments;
    the store that a callback returns is the store in which the plug-in is
    entered, and what the plug-in then does to the dispatcher is not part
    of this development.  [handle_read] does nothing after the call. *)

Definition bytes := list byte.

Record Detector := {
  NAME : string;
  REQUIRED_SIZE : Z;
  detect : bytes -> bool;
}.

(** ** Objects *)

Definition ref := nat.

Definition address := (string * Z)%type.

(** A connected, non-blocking socket as the detector sees it. *)
Record Socket := {
  fileno : Z;
  peername : address;      (* what getpeername() answers *)
  rbuf : bytes;            (* received, not yet consumed *)
  eof : bool;              (* the peer has shut down its side *)
  pending_error : option Z (* errno the next recv raises *)
}.

Record _ProtocolDetector := {
  _detectors : ref;        (* the very list object given to __init__ *)
  _required_size : Z;
  _give_up_at : Z;
}.

Record MultiProtocolAcceptor := {
  _sslctx : option nat;
  _handlers : ref;
  TIMEOUT : Z;
}.

(** Modelled from the spec: [SSLHandshakeDispatcher] of [vdsm.sslutils] is
    not among the sources.  Section 4.4: the handshake must complete within
    the timeout counted from the creation of the handle; on success the
    registered callback is invoked on the dispatcher.  The callback the
    acceptor registers is its bound method [_register_protocol_detector]. *)
Record SSLHandshakeDispatcher := {
  ssl_ctx : nat;
  ssl_handshake_finished_handler : MultiProtocolAcceptor;
  ssl_give_up_at : Z;
}.

Inductive Impl :=
| DetectorImpl (p : _ProtocolDetector)
| HandshakeImpl (h : SSLHandshakeDispatcher).

(** Modelled from the spec: [Dispatcher] and [Reactor] of
    [yajsonrpc.betterAsyncore] are not among the sources.  Section 4.2: a
    handle keeps its socket and its registration while
    [switch_implementation] replaces its behaviour; the reactor is the set
    of registered handles. *)
Record Dispatcher := {
  socket : Socket;
  impl : option Impl;
  closed : bool;
}.

Inductive level := DEBUG | INFO | WARNING.

Inductive logarg :=
| ArgInt (n : Z)
| ArgStr (s : string)
| ArgBytes (b : bytes).

Inductive event :=
| Log (logger : string) (lvl : level) (fmt : string) (args : list logarg)
| Close (dispatcher : ref)
| HandleError (dispatcher : ref)
| HandleDispatcher (detector : Detector) (dispatcher : ref) (addr : address).

Record World := {
  clock : Z;
  lists : gmap ref (list Detector);
  dispatchers : gmap ref Dispatcher;
  reactor : list ref;
  resets : gset ref;       (* dispatchers whose peer has reset the connection *)
  trace : list event;
}.

(** ** The monad of callbacks: store passing with exceptions *)

Definition M (A : Type) := World -> Result A * World.

Definition ret {A} (a : A) : M A := fun w => (Ok a, w).

Definition raise {A} (e : exn) : M A := fun w => (Raise e, w).

Definition bind {A B} (c : M A) (k : A -> M B) : M B :=
  fun w =>
    match c w with
    | (Ok a, w') => k a w'
    | (Raise e, w') => (Raise e, w')
    end.

(** [try: c except socket.error, why: h why] *)
Definition try_socket_error {A} (c : M A) (h : Z -> M A) : M A :=
  fun w =>
    match c w with
    | (Raise (SocketError errno), w') => h errno w'
    | r => r
    end.

Notation "'let!' x ':=' c 'in' k" := (bind c (fun x => k))
  (at level 10, x name, c at level 100, k at level 200).
Notation "'do!' c 'in' k" := (bind c (fun _ => k))
  (at level 10, c at level 100, k at level 200).

Definition emit (e : event) : M unit :=
  fun w => (Ok tt, {| clock := clock w; lists := lists w;
                      dispatchers := dispatchers w; reactor := reactor w;
                      resets := resets w; trace := trace w ++ [e] |}).

Definition log (logger : string) (lvl : level) (fmt : string)
    (args : list logarg) : M unit :=
  emit (Log logger lvl fmt args).

Definition monotonic_time : M Z := fun w => (Ok (clock w), w).

Definition get_list (r : ref) : M (list Detector) :=
  fun w => match lists w !! r with
           | Some l => (Ok l, w)
           | None => (Raise ReferenceError, w)
           end.

Definition set_list (r : ref) (l : list Detector) : M unit :=
  fun w => (Ok tt, {| clock := clock w; lists := <[r := l]> (lists w);
                      dispatchers := dispatchers w; reactor := reactor w;
                      resets := resets w; trace := trace w |}).

Definition get_dispatcher (r : ref) : M Dispatcher :=
  fun w => match dispatchers w !! r with
           | Some d => (Ok d, w)
           | None => (Raise ReferenceError, w)
           end.

Definition set_dispatcher (r : ref) (d : Dispatcher) : M unit :=
  fun w => (Ok tt, {| clock := clock w; lists := lists w;
                      dispatchers := <[r := d]> (dispatchers w);
                      reactor := reactor w; resets := resets w;
                      trace := trace w |}).

Definition new_dispatcher (d : Dispatcher) : M ref :=
  fun w =>
    let r := fresh (dom (dispatchers w)) in
    (Ok r, {| clock := clock w; lists := lists w;
              dispatchers := <[r := d]> (dispatchers w);
              reactor := reactor w; resets := resets w;
              trace := trace w |}).

(** The reactor forgets a handle. *)
Definition forget_dispatcher (r : ref) : M unit :=
  fun w => (Ok tt, {| clock := clock w; lists := lists w;
                      dispatchers := dispatchers w;
                      reactor := List.filter (fun r' => negb (Nat.eqb r r'))
                                   (reactor w);
                      resets := resets w; trace := trace w |}).

Definition peer_has_reset (r : ref) : M bool :=
  fun w => (Ok (bool_decide (r ∈ resets w)), w).

(** ** The socket *)

Definition MSG_PEEK : Z := 2.
Definition EWOULDBLOCK : Z := 11.
Definition EBADF : Z := 9.
Definition ENOTCONN : Z := 107.

(** [sock.recv(bufsize, flags)] on the non-blocking socket of a dispatcher:
    at most [bufsize] bytes from the head of the receive buffer, which
    stay there when [MSG_PEEK] is among the flags.  Bytes that were
    queued before a reset of the peer are still answered.  The receive is
    that of a handle the reactor calls back, which [close] has not yet
    dropped from it: in [handle_read] the receive comes before anything
    that closes. *)
Definition sock_recv (dispatcher : ref) (bufsize flags : Z) : M bytes :=
  let! d := get_dispatcher dispatcher in
  let s := socket d in
  match pending_error s with
  | Some errno => raise (SocketError errno)
  | None =>
    match rbuf s with
    | [] => if eof s then ret [] else raise (SocketError EWOULDBLOCK)
    | _ =>
      let n := Z.to_nat bufsize in
      let data := take n (rbuf s) in
      if negb (Z.land flags MSG_PEEK =? 0) then ret data
      else
        do! set_dispatcher dispatcher
              {| socket := {| fileno := fileno s; peername := peername s;
                              rbuf := drop n (rbuf s); eof := eof s;
                              pending_error := pending_error s |};
                 impl := impl d; closed := closed d |} in
        ret data
    end
  end.

(** [sock.getpeername()]: the address of the peer of the connection.  On
    the socket of a dispatcher that has been closed the call raises
    [socket.error] with [EBADF]; when the peer has reset the connection it
    raises [socket.error] with [ENOTCONN]. *)
Definition sock_getpeername (dispatcher : ref) : M address :=
  let! d := get_dispatcher dispatcher in
  if closed d then raise (SocketError EBADF)
  else
    let! reset := peer_has_reset dispatcher in
    if reset then raise (SocketError ENOTCONN)
    else ret (peername (socket d)).

(** ** Dispatcher and reactor operations *)

Module Dispatcher.

(** Modelled from the spec: the constructor of the absent [Dispatcher];
    a new handle on a socket, with or without behaviour. *)
Definition __init__ (i : option Impl) (sock : Socket) : M ref :=
  new_dispatcher {| socket := sock; impl := i; closed := false |}.

(** Modelled from the spec: [switch_implementation] of the absent
    [Dispatcher] replaces the behaviour of the handle and keeps its
    socket and its registration. *)
Definition switch_implementation (self : ref) (i : Impl) : M unit :=
  let! d := get_dispatcher self in
  set_dispatcher self
    {| socket := socket d; impl := Some i; closed := closed d |}.

(** Modelled from the spec: [close] of the absent [Dispatcher] closes the
    connection.  Section 3: a handle is dropped by the reactor when it is
    closed.  The socket of a closed dispatcher is closed: [getpeername()]
    on it raises [EBADF].  The call is recorded; closing again is
    harmless. *)
Definition close (self : ref) : M unit :=
  let! d := get_dispatcher self in
  do! set_dispatcher self
        {| socket := socket d; impl := impl d; closed := true |} in
  do! forget_dispatcher self in
  emit (Close self).

Definition logger : string := "Dispatcher".

(** Modelled from the spec: [handle_error] of the absent [Dispatcher].
    Sections 4.5 and 7: on a hard socket error the connection is closed
    and a record is logged at warning level; the text of the record is
    not specified.  The call itself is recorded. *)
Definition handle_error (self : ref) : M unit :=
  do! emit (HandleError self) in
  do! log logger WARNING "socket error" [] in
  close self.

End Dispatcher.

Module Reactor.

(** Modelled from the spec: [add_dispatcher] of the absent [Reactor]
    registers a handle. *)
Definition add_dispatcher (d : ref) : M unit :=
  fun w => (Ok tt, {| clock := clock w; lists := lists w;
                      dispatchers := dispatchers w;
                      reactor := reactor w ++ [d]; resets := resets w;
                      trace := trace w |}).

End Reactor.

(** ** [class _ProtocolDetector] *)

(** [max(iterable)] of Python. *)
Definition py_max (l : list Z) : M Z :=
  match l with
  | [] => raise (ValueError "max() arg is an empty sequence")
  | x :: xs => ret (fold_left Z.max xs x)
  end.

Module _ProtocolDetector.

Definition logger : string := "ProtocolDetector.Detector".

Definition __init__ (detectors : ref) (timeout : option Z)
    : M _ProtocolDetector :=
  let! ds := get_list detectors in
  let! required_size := py_max (map REQUIRED_SIZE ds) in
  do! log logger DEBUG "Using required_size=%d" [ArgInt required_size] in
  let! now := monotonic_time in
  match timeout with
  | None => raise (TypeError "unsupported operand type(s) for +")
  | Some t =>
    ret {| _detectors := detectors;
           _required_size := required_size;
           _give_up_at := now + t |}
  end.

Definition readable (self : _ProtocolDetector) (dispatcher : ref) : bool :=
  true.

Definition next_check_interval (self : _ProtocolDetector) : M Z :=
  let! now := monotonic_time in
  ret (Z.min (_give_up_at self - now) 0).

(** The [for detector in self._detectors: ... else: ...] loop of
    [handle_read]: [break] after the first detector that detects, the
    [else] branch when the list is exhausted. *)
Fixpoint detect_loop (dispatcher : ref) (data : bytes)
    (detectors : list Detector) : M unit :=
  match detectors with
  | detector :: rest =>
    if detect detector data then
      let! addr := sock_getpeername dispatcher in
      do! log logger INFO "Detected protocol %s from %s:%d"
            [ArgStr (NAME detector); ArgStr (fst addr); ArgInt (snd addr)] in
      emit (HandleDispatcher detector dispatcher addr)
    else detect_loop dispatcher data rest
  | [] =>
    do! log logger WARNING "Unrecognized protocol: %r" [ArgBytes data] in
    Dispatcher.close dispatcher
  end.

Definition handle_read (self : _ProtocolDetector) (dispatcher : ref)
    : M unit :=
  let! r :=
    try_socket_error
      (let! data := sock_recv dispatcher (_required_size self) MSG_PEEK in
       ret (Some data))
      (fun errno =>
         if errno =? EWOULDBLOCK then ret None
         else do! Dispatcher.handle_error dispatcher in ret None) in
  match r with
  | None => ret tt
  | Some data =>
    if Z.of_nat (length data) <? _required_size self then ret tt
    else
      let! now := monotonic_time in
      do! (if now >? _give_up_at self then
             do! log logger DEBUG "Timed out while waiting for data" [] in
             Dispatcher.close dispatcher
           else ret tt) in
      let! detectors := get_list (_detectors self) in
      detect_loop dispatcher data detectors
  end.

End _ProtocolDetector.

(** ** [SSLHandshakeDispatcher] *)

Module SSLHandshakeDispatcher.

(** Modelled from the spec: the constructor of the absent
    [SSLHandshakeDispatcher]; the deadline of the handshake is counted
    from the creation of the handle (section 4.4). *)
Definition __init__ (sslctx : nat) (handshake_finished_handler :
    MultiProtocolAcceptor) (handshake_timeout : Z)
    : M SSLHandshakeDispatcher :=
  let! now := monotonic_time in
  ret {| ssl_ctx := sslctx;
         ssl_handshake_finished_handler := handshake_finished_handler;
         ssl_give_up_at := now + handshake_timeout |}.

End SSLHandshakeDispatcher.

(** ** [class MultiProtocolAcceptor] *)

Module MultiProtocolAcceptor.

Definition logger : string := "vds.MultiProtocolAcceptor".

Definition _register_protocol_detector (self : MultiProtocolAcceptor)
    (dispatcher : ref) : M ref :=
  let! detector :=
    _ProtocolDetector.__init__ (_handlers self) (Some (TIMEOUT self)) in
  do! Dispatcher.switch_implementation dispatcher (DetectorImpl detector) in
  ret dispatcher.

Definition handle_accept (self : MultiProtocolAcceptor) (client : Socket)
    : M unit :=
  match _sslctx self with
  | None =>
    let! d := Dispatcher.__init__ None client in
    let! d' := _register_protocol_detector self d in
    Reactor.add_dispatcher d'
  | Some sslctx =>
    let! h := SSLHandshakeDispatcher.__init__ sslctx self (TIMEOUT self) in
    let! d := Dispatcher.__init__ (Some (HandshakeImpl h)) client in
    Reactor.add_dispatcher d
  end.

Definition add_detector (self : MultiProtocolAcceptor) (detector : Detector)
    : M unit :=
  do! log logger DEBUG "Adding detector %s" [ArgStr (NAME detector)] in
  let! l := get_list (_handlers self) in
  set_list (_handlers self) (l ++ [detector]).

End MultiProtocolAcceptor.

(** Modelled from the spec: the success path of the absent
    [SSLHandshakeDispatcher]; the callback registered with it is invoked
    on the dispatcher (section 4.4). *)
Definition handshake_finished (dispatcher : ref) : M unit :=
  let! d := get_dispatcher dispatcher in
  match impl d with
  | Some (HandshakeImpl h) =>
    do! MultiProtocolAcceptor._register_protocol_detector
          (ssl_handshake_finished_handler h) dispatcher in
    ret tt
  | _ => ret tt
  end.

(** The peer of the connection of a dispatcher resets it. *)
Definition peer_resets (dispatcher : ref) : M unit :=
  fun w => (Ok tt, {| clock := clock w; lists := lists w;
                      dispatchers := dispatchers w; reactor := reactor w;
                      resets := {[ dispatcher ]} ∪ resets w;
                      trace := trace w |}).

(** The environment lets time pass between two callbacks. *)
Definition advance (dt : Z) : M unit :=
  fun w => (Ok tt, {| clock := clock w + dt; lists := lists w;
                      dispatchers := dispatchers w; reactor := reactor w;
                      resets := resets w; trace := trace w |}).

(** What the trace says about one dispatcher. *)
Fixpoint closes (d : ref) (tr : list event) : nat :=
  match tr with
  | Close d' :: tr' => (if Nat.eqb d d' then 1 else 0) + closes d tr'
  | _ :: tr' => closes d tr'
  | [] => 0
  end%nat.

Fixpoint handoffs (d : ref) (tr : list event) : list Detector :=
  match tr with
  | HandleDispatcher detector d' _ :: tr' =>
    if Nat.eqb d d' then detector :: handoffs d tr' else handoffs d tr'
  | _ :: tr' => handoffs d tr'
  | [] => []
  end.

(** ** Sample data *)

Definition b (s : string) : bytes := list_byte_of_string s.

(** [data.startswith(prefix)] *)
Fixpoint startswith (prefix data : bytes) : bool :=
  match prefix, data with
  | [], _ => true
  | p :: prefix', x :: data' => Byte.eqb p x && startswith prefix' data'
  | _ :: _, [] => false
  end.

Definition ping : Detector :=
  {| NAME := "ping"; REQUIRED_SIZE := 4;
     detect := fun data => startswith (b "PING") data |}.

Definition xhttp : Detector :=
  {| NAME := "xhttp"; REQUIRED_SIZE := 6;
     detect := fun data => startswith (b "X") data |}.

Definition pi_any : Detector :=
  {| NAME := "pi"; REQUIRED_SIZE := 2;
     detect := fun data => startswith (b "PI") data |}.

Definition client_socket (data : bytes) : Socket :=
  {| fileno := 7; peername := ("10.0.0.1", 4242); rbuf := data;
     eof := false; pending_error := None |}.

Definition world0 (detectors : list Detector) : World :=
  {| clock := 0; lists := {[ 0%nat := detectors ]}; dispatchers := ∅;
     reactor := []; resets := ∅; trace := [] |}.

Definition acceptor (sslctx : option nat) (timeout : Z)
    : MultiProtocolAcceptor :=
  {| _sslctx := sslctx; _handlers := 0%nat; TIMEOUT := timeout |}.

(** The scenario shared by the examples: a plain acceptor with the given
    detectors and timeout accepts, at time 0, a client that has sent
    [data]; [late] ticks later the reactor calls [handle_read] of the
    detector installed on the new dispatcher (reference 0). *)
Definition read_after (detectors : list Detector) (timeout : Z)
    (data : bytes) (late : Z) : M unit :=
  do! MultiProtocolAcceptor.handle_accept (acceptor None timeout)
        (client_socket data) in
  do! advance late in
  let! d := get_dispatcher 0%nat in
  match impl d with
  | Some (DetectorImpl p) => _ProtocolDetector.handle_read p 0%nat
  | _ => raise ReferenceError
  end.

(** ** The readers-writer lock

    [RWLock] is imported by [tests/rwlock_test.py] from [storage.misc],
    which is not among the sources; the lock below follows sections 3 and
    4.1 of the specification.  A caller that has to wait is put in the
    queue and is suspended until a release grants its request; the
    signalling primitive of a waiter is not represented. *)

Module RWLock.

Definition identity := nat.

Inductive lock_mode := shared | exclusive.

Inductive outcome :=
| Done              (* the call returned *)
| Suspended         (* the caller waits in the queue *)
| ProgrammerError.  (* the call raised *)

(** Modelled from the spec: the state of the absent [RWLock] class.
    [holders] maps identities to positive recursion counts, with at most
    one exclusive entry and, for an exclusive holder that also acquired
    shared, a distinct shared entry; [wait_queue] is in arrival order. *)
Record state := {
  exclusive_holder : option (identity * positive);
  shared_holders : gmap identity positive;
  wait_queue : list (identity * lock_mode);
}.

Definition init : state :=
  {| exclusive_holder := None; shared_holders := ∅; wait_queue := [] |}.

(** Modelled from the spec: [current_owner_mode] of the absent [RWLock],
    [None] standing for idle. *)
Definition current_owner_mode (s : state) : option lock_mode :=
  match exclusive_holder s with
  | Some _ => Some exclusive
  | None => if decide (shared_holders s = ∅) then None else Some shared
  end.

Definition is_exclusive_holder (t : identity) (s : state) : bool :=
  match exclusive_holder s with
  | Some (t', _) => bool_decide (t = t')
  | None => false
  end.

Definition holds (t : identity) (s : state) : Prop :=
  is_exclusive_holder t s = true \/ is_Some (shared_holders s !! t).

Definition waiting (t : identity) (s : state) : Prop :=
  t ∈ (wait_queue s).*1.

#[global] Instance waiting_dec t s : Decision (waiting t s) :=
  list_elem_of_dec (A := nat) t (wait_queue s).*1.

Definition is_exclusive (m : lock_mode) : bool :=
  match m with exclusive => true | shared => false end.

Definition has_exclusive_waiter (s : state) : bool :=
  existsb (fun w => is_exclusive w.2) (wait_queue s).

Definition enqueue (t : identity) (m : lock_mode) (s : state) : state :=
  {| exclusive_holder := exclusive_holder s;
     shared_holders := shared_holders s;
     wait_queue := wait_queue s ++ [(t, m)] |}.

Definition set_shared (h : gmap identity positive) (s : state) : state :=
  {| exclusive_holder := exclusive_holder s;
     shared_holders := h;
     wait_queue := wait_queue s |}.

Definition set_exclusive (e : option (identity * positive)) (s : state)
    : state :=
  {| exclusive_holder := e;
     shared_holders := shared_holders s;
     wait_queue := wait_queue s |}.

(** Modelled from the spec: the granting rule of the absent [RWLock],
    step 2: grant the shared waiters at the head, stop at the first
    exclusive one. *)
Fixpoint grant_shared (q : list (identity * lock_mode))
    (h : gmap identity positive)
    : gmap identity positive * list (identity * lock_mode) :=
  match q with
  | (t, shared) :: q' => grant_shared q' (<[t := 1%positive]> h)
  | _ => (h, q)
  end.

(** Modelled from the spec: the granting rule of the absent [RWLock],
    run against the head of the queue: an exclusive head is granted when
    the lock is idle, and one waiter is popped; a shared head is granted
    together with the shared waiters that follow it. *)
Definition grant (s : state) : state :=
  match wait_queue s with
  | [] => s
  | (t, exclusive) :: q =>
    match current_owner_mode s with
    | None =>
      {| exclusive_holder := Some (t, 1%positive);
         shared_holders := shared_holders s;
         wait_queue := q |}
    | Some _ => s
    end
  | (t, shared) :: _ =>
    match exclusive_holder s with
    | None =>
      let '(h, q) := grant_shared (wait_queue s) (shared_holders s) in
      {| exclusive_holder := None; shared_holders := h; wait_queue := q |}
    | Some _ => s
    end
  end.

(** Modelled from the spec: [acquire_shared] of the absent [RWLock].
    A holder is granted at once (recursion, or an exclusive holder
    preparing its demotion); another caller is granted unless the lock is
    held exclusively or an exclusive waiter is ahead of it in the queue,
    and waits otherwise. *)
Definition acquire_shared (t : identity) (s : state) : state * outcome :=
  match shared_holders s !! t with
  | Some n => (set_shared (<[t := Pos.succ n]> (shared_holders s)) s, Done)
  | None =>
    if is_exclusive_holder t s then
      (set_shared (<[t := 1%positive]> (shared_holders s)) s, Done)
    else
      match exclusive_holder s with
      | None =>
        if has_exclusive_waiter s then (enqueue t shared s, Suspended)
        else (set_shared (<[t := 1%positive]> (shared_holders s)) s, Done)
      | Some _ => (enqueue t shared s, Suspended)
      end
  end.

(** Modelled from the spec: [acquire_exclusive] of the absent [RWLock].
    The exclusive holder is granted at once; a shared holder is refused
    (promotion); another caller is granted when the lock is idle and
    nobody waits, and waits otherwise. *)
Definition acquire_exclusive (t : identity) (s : state) : state * outcome :=
  if is_exclusive_holder t s then
    match exclusive_holder s with
    | Some (_, n) => (set_exclusive (Some (t, Pos.succ n)) s, Done)
    | None => (s, Done)
    end
  else
    match shared_holders s !! t with
    | Some _ => (s, ProgrammerError)
    | None =>
      match current_owner_mode s, wait_queue s with
      | None, [] => (set_exclusive (Some (t, 1%positive)) s, Done)
      | _, _ => (enqueue t exclusive s, Suspended)
      end
    end.

Definition decrement (n : positive) : option positive :=
  if decide (n = 1%positive) then None else Some (Pos.pred n).

(** Modelled from the spec: [release] of the absent [RWLock].  It is
    refused when the caller holds nothing; otherwise the caller's count
    is decremented (the exclusive one first when it holds both), the
    entry is removed at zero, and the granting rule is run. *)
Definition release (t : identity) (s : state) : state * outcome :=
  if is_exclusive_holder t s then
    match exclusive_holder s with
    | Some (_, n) =>
      (grant (set_exclusive ((fun n' => (t, n')) <$> decrement n) s), Done)
    | None => (s, Done)
    end
  else
    match shared_holders s !! t with
    | Some n =>
      (grant (set_shared
                match decrement n with
                | Some n' => <[t := n']> (shared_holders s)
                | None => delete t (shared_holders s)
                end s), Done)
    | None => (s, ProgrammerError)
    end.

(** Calls of threads, interleaved; a suspended caller issues none. *)
Inductive call := AcquireShared | AcquireExclusive | Release.

Definition perform (c : call) (t : identity) (s : state) : state * outcome :=
  match c with
  | AcquireShared => acquire_shared t s
  | AcquireExclusive => acquire_exclusive t s
  | Release => release t s
  end.

Definition step (s : state) (tc : identity * call) : state :=
  if decide (waiting tc.1 s) then s else (perform tc.2 tc.1 s).1.

Definition run (calls : list (identity * call)) (s : state) : state :=
  fold_left step calls s.

(** Waiters are distinct and hold nothing. *)
Definition wf (s : state) : Prop :=
  NoDup (wait_queue s).*1 /\ forall t, waiting t s -> ~ holds t s.

(** [B] waits somewhere behind the exclusive waiter [A]. *)
Definition behind_exclusive (A B : identity) (s : state) : Prop :=
  exists q1 q2,
    wait_queue s = q1 ++ (A, exclusive) :: q2 /\ B ∈ q2.*1.

End RWLock.

(** A detector handle in the middle of its life: dispatcher 0 carries a
    socket that has received [data], the list of detectors is object 0. *)
Definition sample_detector (required_size give_up_at : Z)
    : _ProtocolDetector :=
  {| _detectors := 0%nat; _required_size := required_size;
     _give_up_at := give_up_at |}.

Definition detecting_world (detectors : list Detector)
    (self : _ProtocolDetector) (data : bytes) (now : Z) : World :=
  {| clock := now;
     lists := {[ 0%nat := detectors ]};
     dispatchers :=
       {[ 0%nat := {| socket := client_socket data;
                      impl := Some (DetectorImpl self);
                      closed := false |} ]};
     reactor := [0%nat];
     resets := ∅;
     trace := [] |}.

(** [add_detector] called for each detector of a list, in order. *)
Fixpoint add_detectors (self : MultiProtocolAcceptor)
    (detectors : list Detector) : M unit :=
  match detectors with
  | [] => ret tt
  | detector :: rest =>
    do! MultiProtocolAcceptor.add_detector self detector in
    add_detectors self rest
  end.

(** The reading of the deadline in which the handshake and the detection
    share one budget: the detector installed when the handshake succeeds
    gives up when the handshake would have. *)
Definition deadline_kept_on_switch : Prop :=
  forall (d : ref) (w w' : World) (disp : Dispatcher)
         (h : SSLHandshakeDispatcher),
    dispatchers w !! d = Some disp ->
    impl disp = Some (HandshakeImpl h) ->
    handshake_finished d w = (Ok tt, w') ->
    exists disp' p,
      dispatchers w' !! d = Some disp' /\
      impl disp' = Some (DetectorImpl p) /\
      _give_up_at p = ssl_give_up_at h.

(** ** [class _AcceptorImpl]

    The behaviour of the listening dispatcher.  The listening socket is
    not part of the store: the call [dispatcher.socket.accept()] is given
    as an action of the environment that answers the accepted socket or
    raises.  The sockets of the store are non-blocking, which is what
    [client.setblocking(0)] establishes.  The accepted socket is a
    connection that stands when it is accepted, so that [getpeername()]
    answers its peer; a reset by the peer is a later step of the
    environment ([peer_resets]) on the dispatcher made for it. *)

Record _AcceptorImpl := {
  _dispatcher_factory : Socket -> M unit;
}.

Module _AcceptorImpl.

Definition logger : string := "ProtocolDetector.AcceptorImpl".

Definition readable (self : _AcceptorImpl) (dispatcher : ref) : bool := true.

Definition handle_accept (self : _AcceptorImpl) (accept : M Socket)
    : M unit :=
  let! r :=
    try_socket_error
      (let! client := accept in ret (Some client))
      (fun _ => ret None) in
  match r with
  | None => ret tt
  | Some client =>
    let addr := peername client in
    do! log logger INFO "Accepting connection from %s:%d"
          [ArgStr addr.1; ArgInt addr.2] in
    _dispatcher_factory self client
  end.

End _AcceptorImpl.


(** ** [tests/rwlock_test.py]: [stats]

    The helper of the fairness test.  The quotient of [sum(seq)] by
    [float(len(seq))] is a float; the division by a float that is not
    zero is a parameter, which answers nothing when the integer is too
    large to be converted to a float ([OverflowError]); the test for zero
    that Python makes before dividing is written out. *)

Module rwlock_test.

Inductive test_exn := ZeroDivisionError | OverflowError | IndexError.

Inductive Outcome (A : Type) :=
| Returned (a : A)
| Raised (e : test_exn).
Arguments Returned {A} a.
Arguments Raised {A} e.

Section Stats.

Context {float : Type} (true_div : Z -> Z -> option float).

Definition stats (seq : list Z) : Outcome (float * Z * Z * Z) :=
  let seq := merge_sort Z.le seq in
  if decide (length seq = 0%nat) then Raised ZeroDivisionError
  else
    match true_div (fold_left Z.add seq 0) (Z.of_nat (length seq)) with
    | None => Raised OverflowError
    | Some avg =>
      match seq !! (length seq / 2)%nat, seq !! 0%nat, last seq with
      | Some med, Some lo, Some hi => Returned (avg, med, lo, hi)
      | _, _, _ => Raised IndexError
      end
    end.

End Stats.

End rwlock_test.

(** ** States of the lock used by its tests *)

(** An exclusive holder shares the lock with nobody but itself. *)
Definition exclusive_alone (s : RWLock.state) : Prop :=
  forall t n u,
    RWLock.exclusive_holder s = Some (t, n) ->
    is_Some (RWLock.shared_holders s !! u) -> u = t.

(** The lock held by [t] alone, [n] times, with nobody waiting. *)
Definition held_exclusive (t : RWLock.identity) (n : positive)
    : RWLock.state :=
  {| RWLock.exclusive_holder := Some (t, n);
     RWLock.shared_holders := ∅;
     RWLock.wait_queue := [] |}.

Definition held_shared (t : RWLock.identity) (n : positive) : RWLock.state :=
  {| RWLock.exclusive_holder := None;
     RWLock.shared_holders := {[ t := n ]};
     RWLock.wait_queue := [] |}.

(** What the calls of a run answer, in order: a call either returns, or
    suspends its caller, or raises; a thread that waits in the queue
    makes no call and stays suspended. *)
Fixpoint outcomes (calls : list (RWLock.identity * RWLock.call))
    (s : RWLock.state) : list RWLock.outcome :=
  match calls with
  | [] => []
  | tc :: rest =>
    (if decide (RWLock.waiting tc.1 s) then RWLock.Suspended
     else (RWLock.perform tc.2 tc.1 s).2)
    :: outcomes rest (RWLock.step s tc)
  end.

(** ** [lib/vdsm/network/link/iface.py]

    The collaborators of the module (sysfs, ethtool, netlink, dpdk) are
    an environment; of their failures the one that the source handles,
    the [IOError] of [ethtool.driver_name], is represented.  The draws of
    [random.choice] are given by the caller.  A path built from a name
    that is not a string raises; the exception is written [TypeError],
    as Python 3 has it. *)

Module iface.

Inductive exn :=
| AttributeError (msg : string)
| IOError (errno : Z)
| KeyError (key : string)
| TypeError.

Inductive Res (A : Type) :=
| Returns (a : A)
| Raises (e : exn).
Arguments Returns {A} a.
Arguments Raises {A} e.

(** The values found in the property dicts of links. *)
Inductive value :=
| VNone
| VStr (s : string)
| VInt (n : Z).

Record Env := {
  path_exists : string -> bool;             (* os.path.exists *)
  driver_name : string -> Res string;       (* ethtool.driver_name *)
  is_dpdk : string -> bool;                 (* dpdk.is_dpdk *)
  get_link : option string -> gmap string value;   (* link.get_link *)
  link_info : option string -> option value -> gmap string value;
                                            (* dpdk.link_info *)
  iter_links : list (gmap string value);    (* link.iter_links() *)
  get_dpdk_devices : list (string * gmap string value);
                                            (* the items of the dict *)
}.

Definition STATE_UP : string := "up".
Definition STATE_DOWN : string := "down".
Definition NET_PATH : string := "/sys/class/net".
Definition DEFAULT_MTU : Z := 1500.
Definition EOPNOTSUPP : Z := 95.

Module Type_.
Definition NIC : string := "nic".
Definition VLAN : string := "vlan".
Definition BOND : string := "bond".
Definition BRIDGE : string := "bridge".
Definition LOOPBACK : string := "loopback".
Definition MACVLAN : string := "macvlan".
Definition DPDK : string := "dpdk".
Definition DUMMY : string := "dummy".
Definition TUN : string := "tun".
Definition OVS : string := "openvswitch".
Definition TEAM : string := "team".
Definition VETH : string := "veth".
Definition VF : string := "vf".
End Type_.

(** [os.path.join] of POSIX, two components at a time. *)
Definition ends_with_sep (p : string) : bool :=
  match String.length p with
  | O => false
  | S n => match String.get n p with
           | Some c => Ascii.eqb c (Ascii.ascii_of_nat 47)
           | None => false
           end
  end.

Definition path_join (a c : string) : string :=
  if String.prefix "/" c then c
  else if (String.length a =? 0)%nat || ends_with_sep a
       then String.append a c
       else String.append a (String.append "/" c).

Record IfaceHybrid := {
  _dev : option string;
  _vfid : option Z;
  _is_dpdk_type : option bool;   (* set by the factory *)
}.

Module IfaceHybrid.

Definition __init__ : IfaceHybrid :=
  {| _dev := None; _vfid := None; _is_dpdk_type := None |}.

Definition device (self : IfaceHybrid) : option string := _dev self.

(** [@device.setter]; [if self._dev] is the truth value of the name. *)
Definition set_device (self : IfaceHybrid) (dev : string) : Res IfaceHybrid :=
  if match _dev self with
     | Some d => negb (String.eqb d "")
     | None => false
     end
  then Raises (AttributeError "Constant attribute, unable to modify")
  else Returns {| _dev := Some dev; _vfid := _vfid self;
                  _is_dpdk_type := _is_dpdk_type self |}.

Definition vfid (self : IfaceHybrid) : option Z := _vfid self.

(** [@vfid.setter]; [if self._vfid] is the truth value of the id. *)
Definition set_vfid (self : IfaceHybrid) (vf : option Z) : Res IfaceHybrid :=
  if match _vfid self with
     | Some n => negb (n =? 0)
     | None => false
     end
  then Raises (AttributeError "Constant attribute, unable to modify")
  else Returns {| _dev := _dev self; _vfid := vf;
                  _is_dpdk_type := _is_dpdk_type self |}.

End IfaceHybrid.

(** [iface(device, vfid=None)], the factory. *)
Definition iface (env : Env) (device : string) (vfid : option Z)
    : Res IfaceHybrid :=
  let interface := IfaceHybrid.__init__ in
  match IfaceHybrid.set_device interface device with
  | Raises e => Raises e
  | Returns interface =>
    let interface :=
      {| _dev := _dev interface; _vfid := _vfid interface;
         _is_dpdk_type := Some (is_dpdk env device) |} in
    IfaceHybrid.set_vfid interface vfid
  end.

(** [string.digits] and [string.ascii_letters]. *)
Definition digits : string := "0123456789".
Definition ascii_letters : string :=
  "abcdefghijklmnopqrstuvwxyzABCDEFGHIJKLMNOPQRSTUVWXYZ".

(** [random.choice(seq)] with the draw made: the element of the
    sequence at the drawn position. *)
Definition choice (seq : string) (draw : nat) : Ascii.ascii :=
  match String.get (draw mod String.length seq) seq with
  | Some c => c
  | None => Ascii.zero
  end.

Definition random_iface_name (draws : nat -> nat) (prefix : string)
    (max_length : Z) (digit_only : bool) : string :=
  let suffix_len := max_length - Z.of_nat (String.length prefix) in
  let suffix_chars :=
    if negb digit_only then String.append digits ascii_letters
    else digits in
  let suffix :=
    string_of_list_ascii
      (map (fun i => choice suffix_chars (draws i))
         (seq 0 (Z.to_nat suffix_len))) in
  String.append prefix suffix.

Definition get_alternative_type (env : Env) (device : string)
    : Res (option string) :=
  if path_exists env
       (path_join (path_join NET_PATH device) "device/physfn")
  then Returns (Some Type_.VF)
  else
    match driver_name env device with
    | Returns name =>
      Returns (if negb (String.eqb name "") then Some Type_.NIC else None)
    | Raises (IOError errno) =>
      if errno =? EOPNOTSUPP then
        Returns (Some (if String.eqb device "lo" then Type_.LOOPBACK
                       else Type_.DUMMY))
      else Raises (IOError errno)
    | Raises e => Raises e
    end.

Definition to_value (t : option string) : value :=
  match t with
  | Some s => VStr s
  | None => VNone
  end.

(** [IfaceHybrid.properties] and [IfaceHybrid.type]; the default of
    [dict.get] is computed before the lookup. *)
Definition properties (env : Env) (self : IfaceHybrid)
    : Res (gmap string value) :=
  match _is_dpdk_type self with
  | None => Raises (AttributeError "_is_dpdk_type")
  | Some true => Returns (link_info env (_dev self) None)
  | Some false => Returns (get_link env (_dev self))
  end.

Definition type_ (env : Env) (self : IfaceHybrid) : Res value :=
  match properties env self with
  | Raises e => Raises e
  | Returns info =>
    match _dev self with
    | None => Raises TypeError
    | Some dev =>
      match get_alternative_type env dev with
      | Raises e => Raises e
      | Returns alternative =>
        Returns (default (to_value alternative) (info !! "type"))
      end
    end
  end.

(** The links that [list()] goes through, each computed when it is
    reached: those of netlink, then those of dpdk. *)
Definition chained_links (env : Env) : list (Res (gmap string value)) :=
  map Returns (iter_links env) ++
  map (fun '(dev_name, dev_info) =>
         match dev_info !! "pci_addr" with
         | Some pci_addr =>
           Returns (link_info env (Some dev_name) (Some pci_addr))
         | None => Raises (KeyError "pci_addr")
         end)
      (get_dpdk_devices env).

(** The body of the loop of [list()] on one link. *)
Definition with_type (env : Env) (properties : gmap string value)
    : Res (gmap string value) :=
  match properties !! "type" with
  | Some _ => Returns properties
  | None =>
    match properties !! "name" with
    | None => Raises (KeyError "name")
    | Some (VStr name) =>
      match get_alternative_type env name with
      | Returns t => Returns (<["type" := to_value t]> properties)
      | Raises e => Raises e
      end
    | Some _ => Raises TypeError
    end
  end.

(** The generator [list()]: what it yields, and the exception that ends
    it if one does. *)
Fixpoint list_loop (env : Env) (links : list (Res (gmap string value)))
    : list (gmap string value) * option exn :=
  match links with
  | [] => ([], None)
  | Raises e :: _ => ([], Some e)
  | Returns properties :: rest =>
    match with_type env properties with
    | Raises e => ([], Some e)
    | Returns properties =>
      let '(yielded, e) := list_loop env rest in
      (properties :: yielded, e)
    end
  end.

Definition list (env : Env) : list (gmap string value) * option exn :=
  list_loop env (chained_links env).

End iface.

(** ** [lib/vdsm/tool/config_lvm_filter.py]

    [main] after [parse_args]: the option [--assume-yes] is given as a
    boolean.  What [lvmfilter], [lvmconf], [mpathconf] and [common] find
    and answer is an environment; the calls that print, ask or write are
    recorded in order. *)

Module config_lvm_filter.

Definition _NAME : string := "config-lvm-filter".
Definition CANNOT_CONFIG : Z := 3.
Definition NEEDS_CONFIG : Z := 4.

(** The actions that [lvmfilter.analyze] advises; [OTHER] stands for a
    value that is none of the three constants [main] compares with. *)
Inductive action := UNNEEDED | CONFIGURE | RECOMMEND | OTHER.

Record Advice := {
  advice_action : action;
  advice_filter : list string;
  advice_wwids : list string;
}.

Record Mount := {
  lv : string;
  mountpoint : string;
  devices : list string;
}.

Record Env := {
  find_lvm_mounts : list Mount;
  build_filter : list Mount -> list string;
  find_wwids : list Mount -> list string;
  getlist : string -> string -> option (list string); (* LVMConfig.getlist *)
  read_blacklist : list string;
  analyze : option (list string) -> list string -> list string ->
            list string -> Advice;
  format_option : list string -> string;
  format_blacklist : list string -> string;
  indent : string -> string -> string;                (* textwrap.indent *)
  confirm : string -> bool;                           (* common.confirm *)
}.

Inductive event :=
| Print (args : list string)
| Confirm (prompt : string)
| ConfigureBlacklist (wwids : list string)
| SetList (section option : string) (value : list string)
| Save.

Definition print_mount (mnt : Mount) : list event :=
  [Print ["  logical volume: "; lv mnt];
   Print ["  mountpoint:     "; mountpoint mnt];
   Print ["  devices:        "; String.concat ", " (devices mnt)];
   Print []].

Definition main (env : Env) (assume_yes : bool) : list event * option Z :=
  let mounts := find_lvm_mounts env in
  let wanted_filter := build_filter env mounts in
  let wanted_wwids := find_wwids env mounts in
  let current_filter := getlist env "devices" "filter" in
  let current_wwids := read_blacklist env in
  let advice :=
    analyze env current_filter wanted_filter current_wwids wanted_wwids in
  let analyzing := [Print ["Analyzing host..."]] in
  match advice_action advice with
  | UNNEEDED =>
    (analyzing ++ [Print ["LVM filter is already configured for Vdsm"]],
     None)
  | act =>
    let report :=
      analyzing ++
      [Print ["Found these mounted logical volumes on this host:"];
       Print []] ++
      concat (map print_mount mounts) ++
      [Print ["This is the recommended LVM filter for this host:"];
       Print [];
       Print [String.append "  " (format_option env wanted_filter)];
       Print [];
       Print ["This filter allows LVM to access the local devices used by the
hypervisor, but not shared storage owned by Vdsm. If you add a new
device to the volume group, you will need to edit the filter manually.
"]] ++
      match current_filter with
      | Some (_ :: _ as f) =>
        [Print ["This is the current LVM filter:"];
         Print [];
         Print [String.append "  " (format_option env f)];
         Print []]
      | _ => []
      end ++
      match advice_wwids advice with
      | _ :: _ =>
        [Print ["To use the recommended filter we need to add multipath"];
         Print ["blacklist in /etc/multipath/conf.d/vdsm_blacklist.conf:"];
         Print [];
         Print [indent env (format_blacklist env (advice_wwids advice))
                  "  "];
         Print []]
      | [] => []
      end in
    match act with
    | CONFIGURE =>
      let asked :=
        if negb assume_yes then [Confirm "Configure host? [yes,NO] "]
        else [] in
      if negb assume_yes && negb (confirm env "Configure host? [yes,NO] ")
      then (report ++ asked, Some NEEDS_CONFIG)
      else
        (report ++ asked ++
         [ConfigureBlacklist (advice_wwids advice);
          SetList "devices" "filter" (advice_filter advice);
          Save;
          Print ["Configuration completed successfully!

Please reboot to verify the configuration.
"]],
         None)
    | RECOMMEND =>
      (report ++
       [Print ["WARNING: The current LVM filter does not match the recommended filter,
Vdsm cannot configure the filter automatically.

Please edit /etc/lvm/lvm.conf and set the 'filter' option in the
'devices' section to the recommended value.

Make sure /etc/multipath/conf.d/vdsm_blacklist.conf is set with the
recommended 'blacklist' section.

It is recommended to reboot to verify the new configuration.
"]],
       Some CANNOT_CONFIG)
    | _ => (report, None)
    end
  end.

(** The calls of a run that change the host. *)
Definition is_write (e : event) : bool :=
  match e with
  | ConfigureBlacklist _ | SetList _ _ _ | Save => true
  | _ => false
  end.

Definition is_question (e : event) : bool :=
  match e with Confirm _ => true | _ => false end.

Definition writes (evs : list event) : list event :=
  List.filter is_write evs.

Definition questions (evs : list event) : list event :=
  List.filter is_question evs.

End config_lvm_filter.

(** * Properties of the protocol detector *)

Definition add_events (evs : list event) (w : World) : World :=
  {| clock := clock w; lists := lists w; dispatchers := dispatchers w;
     reactor := reactor w; resets := resets w; trace := trace w ++ evs |}.

Definition mark_closed (d : ref) (disp : Dispatcher) (w : World) : World :=
  {| clock := clock w; lists := lists w;
     dispatchers :=
       <[d := {| socket := socket disp; impl := impl disp;
                 closed := true |}]> (dispatchers w);
     reactor := List.filter (fun r' => negb (Nat.eqb d r')) (reactor w);
     resets := resets w; trace := trace w |}.

(** The calls of [handle_dispatcher] recorded in a trace. *)
Fixpoint all_handoffs (tr : list event) : list (Detector * ref) :=
  match tr with
  | HandleDispatcher detector d _ :: tr' => (detector, d) :: all_handoffs tr'
  | _ :: tr' => all_handoffs tr'
  | [] => []
  end.

(** What a peek of [n] bytes answers on a socket. *)
Definition peek_result (s : Socket) (n : Z) : Result bytes :=
  match pending_error s with
  | Some errno => Raise (SocketError errno)
  | None =>
    match rbuf s with
    | [] => if eof s then Ok [] else Raise (SocketError EWOULDBLOCK)
    | _ => Ok (take (Z.to_nat n) (rbuf s))
    end
  end.

Definition timed_out (self : _ProtocolDetector) (w : World) : bool :=
  clock w >? _give_up_at self.

Definition timeout_events (self : _ProtocolDetector) (d : ref) (w : World)
    : list event :=
  if timed_out self w then
    [Log _ProtocolDetector.logger DEBUG "Timed out while waiting for data" [];
     Close d]
  else [].

(** The world after the deadline test of [handle_read]. *)
Definition after_deadline_test (self : _ProtocolDetector) (d : ref)
    (disp : Dispatcher) (w : World) : World :=
  if timed_out self w then
    add_events (timeout_events self d w) (mark_closed d disp w)
  else w.

Definition detected_events (det : Detector) (d : ref) (addr : address)
    : list event :=
  [Log _ProtocolDetector.logger INFO "Detected protocol %s from %s:%d"
     [ArgStr (NAME det); ArgStr addr.1; ArgInt addr.2];
   HandleDispatcher det d addr].

Definition unrecognized_events (d : ref) (data : bytes) : list event :=
  [Log _ProtocolDetector.logger WARNING "Unrecognized protocol: %r"
     [ArgBytes data];
   Close d].

(** The events of [handle_error] on a dispatcher. *)
Definition hard_error_events (d : ref) : list event :=
  [HandleError d; Log Dispatcher.logger WARNING "socket error" []; Close d].

(** What [getpeername()] answers on the socket of dispatcher [d], whose
    entry in the store is [disp]. *)
Definition peer_address (d : ref) (disp : Dispatcher) (w : World)
    : Result address :=
  if closed disp then Raise (SocketError EBADF)
  else if bool_decide (d ∈ resets w) then Raise (SocketError ENOTCONN)
  else Ok (peername (socket disp)).

(** The reactor calls [handle_read] of a detector again and again, each
    time after the given delay. *)
Fixpoint read_repeatedly (self : _ProtocolDetector) (d : ref)
    (delays : list Z) : M unit :=
  match delays with
  | [] => ret tt
  | dt :: rest =>
    do! advance dt in
    do! _ProtocolDetector.handle_read self d in
    read_repeatedly self d rest
  end.

(** The reading of first-match in which the first detector that detects a
    full peek is handed the dispatcher whatever the clock says. *)
Definition first_match_always_handed_off : Prop :=
  forall (self : _ProtocolDetector) (d : ref) (w : World) (disp : Dispatcher)
         (data rest : bytes) (pre post : list Detector) (det : Detector),
    dispatchers w !! d = Some disp ->
    pending_error (socket disp) = None ->
    rbuf (socket disp) = data ++ rest ->
    Z.of_nat (length data) = _required_size self ->
    0 < _required_size self ->
    lists w !! _detectors self = Some (pre ++ det :: post) ->
    Forall (fun x => detect x data = false) pre ->
    detect det data = true ->
    exists w' evs,
      _ProtocolDetector.handle_read self d w = (Ok tt, w') /\
      trace w' = trace w ++ evs /\
      all_handoffs evs = [(det, d)].

(** Split a goal into its conjuncts, and no further. *)
Ltac conjuncts := repeat match goal with |- _ /\ _ => split end.

Lemma add_events_app evs1 evs2 w :
  add_events evs2 (add_events evs1 w) = add_events (evs1 ++ evs2) w.
Proof. unfold add_events; simpl. by rewrite app_assoc. Qed.

Lemma bind_ok {A B} (c : M A) (k : A -> M B) w a w' :
  c w = (Ok a, w') -> bind c k w = k a w'.
Proof. intros H. unfold bind. by rewrite H. Qed.

Lemma get_dispatcher_ok d w disp :
  dispatchers w !! d = Some disp -> get_dispatcher d w = (Ok disp, w).
Proof. intros H. unfold get_dispatcher. by rewrite H. Qed.

Lemma sock_recv_peek d n w disp :
  dispatchers w !! d = Some disp ->
  sock_recv d n MSG_PEEK w = (peek_result (socket disp) n, w).
Proof.
  intros H. unfold sock_recv, bind, peek_result.
  rewrite (get_dispatcher_ok _ _ _ H).
  destruct (pending_error (socket disp)); [done|].
  destruct (rbuf (socket disp)); [by destruct (eof (socket disp))|done].
Qed.

Lemma close_spec d w disp :
  dispatchers w !! d = Some disp ->
  Dispatcher.close d w = (Ok tt, add_events [Close d] (mark_closed d disp w)).
Proof.
  intros H. unfold Dispatcher.close, bind.
  by rewrite (get_dispatcher_ok _ _ _ H).
Qed.

Lemma log_spec logger lvl fmt args w :
  log logger lvl fmt args w = (Ok tt, add_events [Log logger lvl fmt args] w).
Proof. done. Qed.

Lemma emit_spec e w : emit e w = (Ok tt, add_events [e] w).
Proof. done. Qed.

Lemma mark_closed_add_events d disp evs w :
  mark_closed d disp (add_events evs w) = add_events evs (mark_closed d disp w).
Proof. done. Qed.

Lemma handle_error_spec d w disp :
  dispatchers w !! d = Some disp ->
  Dispatcher.handle_error d w =
  (Ok tt, add_events (hard_error_events d) (mark_closed d disp w)).
Proof.
  intros H. unfold Dispatcher.handle_error.
  erewrite bind_ok by apply emit_spec.
  erewrite bind_ok by apply log_spec.
  rewrite (close_spec d _ disp) by done.
  by rewrite !mark_closed_add_events, !add_events_app.
Qed.

Lemma sock_getpeername_spec d w disp :
  dispatchers w !! d = Some disp ->
  sock_getpeername d w = (peer_address d disp w, w).
Proof.
  intros H. unfold sock_getpeername, peer_address.
  erewrite bind_ok by (by apply get_dispatcher_ok).
  destruct (closed disp); [done|].
  unfold bind, peer_has_reset. by destruct (bool_decide (d ∈ resets w)).
Qed.

Lemma peer_address_ok d disp w :
  closed disp = false -> d ∉ resets w ->
  peer_address d disp w = Ok (peername (socket disp)).
Proof.
  intros Hc Hr. unfold peer_address. rewrite Hc.
  by rewrite bool_decide_eq_false_2.
Qed.

(** The loop over detectors: a detector that detects after detectors that
    do not is handed the dispatcher, unless [getpeername()] raises. *)
Lemma detect_loop_match d data pre det post w disp :
  dispatchers w !! d = Some disp ->
  Forall (fun x => detect x data = false) pre ->
  detect det data = true ->
  _ProtocolDetector.detect_loop d data (pre ++ det :: post) w =
  match peer_address d disp w with
  | Ok addr => (Ok tt, add_events (detected_events det d addr) w)
  | Raise e => (Raise e, w)
  end.
Proof.
  intros Hd Hpre Hdet. induction Hpre as [|x pre Hx _ IH]; simpl.
  - rewrite Hdet. unfold bind at 1.
    rewrite (sock_getpeername_spec _ _ _ Hd).
    destruct (peer_address d disp w) as [addr|e]; [|done].
    erewrite bind_ok by apply log_spec.
    by rewrite emit_spec, add_events_app.
  - by rewrite Hx.
Qed.

(** The loop over detectors none of which detects. *)
Lemma detect_loop_no_match d data ds w disp :
  dispatchers w !! d = Some disp ->
  Forall (fun x => detect x data = false) ds ->
  _ProtocolDetector.detect_loop d data ds w =
  (Ok tt, add_events (unrecognized_events d data) (mark_closed d disp w)).
Proof.
  intros Hd Hds. induction Hds as [|x ds Hx _ IH]; simpl.
  - erewrite bind_ok by apply log_spec.
    rewrite (close_spec d _ disp) by done.
    by rewrite mark_closed_add_events, add_events_app.
  - by rewrite Hx.
Qed.

Lemma after_deadline_test_dispatcher self d disp w :
  dispatchers w !! d = Some disp ->
  exists disp', dispatchers (after_deadline_test self d disp w) !! d = Some disp'
    /\ socket disp' = socket disp.
Proof.
  intros Hd. unfold after_deadline_test.
  destruct (timed_out self w); [|by eexists].
  simpl. rewrite lookup_insert_eq. by eexists.
Qed.

Lemma after_deadline_test_trace self d disp w :
  trace (after_deadline_test self d disp w) = trace w ++ timeout_events self d w.
Proof.
  unfold after_deadline_test, timeout_events.
  destruct (timed_out self w); simpl; [done|by rewrite app_nil_r].
Qed.

(** [handle_read] when the peek answers at least [_required_size] bytes:
    the deadline test, then the loop over the detectors in the list. *)
Lemma handle_read_full self d w disp data ds :
  dispatchers w !! d = Some disp ->
  peek_result (socket disp) (_required_size self) = Ok data ->
  (Z.of_nat (length data) <? _required_size self) = false ->
  lists w !! _detectors self = Some ds ->
  _ProtocolDetector.handle_read self d w =
  _ProtocolDetector.detect_loop d data ds (after_deadline_test self d disp w).
Proof.
  intros Hd Hpeek Hlen Hds.
  unfold _ProtocolDetector.handle_read, bind at 1, try_socket_error, bind at 1.
  rewrite (sock_recv_peek _ _ _ _ Hd), Hpeek. simpl.
  rewrite Hlen. erewrite bind_ok by done.
  change (clock w >? _give_up_at self) with (timed_out self w).
  unfold after_deadline_test, timeout_events.
  destruct (timed_out self w) eqn:Hlate.
  - erewrite bind_ok; cycle 1.
    { erewrite bind_ok by apply log_spec.
      by rewrite (close_spec d _ disp). }
    rewrite mark_closed_add_events, add_events_app.
    erewrite bind_ok; [done|].
    unfold get_list. simpl. by rewrite Hds.
  - erewrite bind_ok by done.
    erewrite bind_ok; [done|].
    unfold get_list. by rewrite Hds.
Qed.

(** [handle_read] when the peek answers fewer bytes, or would block:
    nothing happens, whatever the clock says. *)
Lemma handle_read_short self d w disp data :
  dispatchers w !! d = Some disp ->
  peek_result (socket disp) (_required_size self) = Ok data ->
  (Z.of_nat (length data) <? _required_size self) = true ->
  _ProtocolDetector.handle_read self d w = (Ok tt, w).
Proof.
  intros Hd Hpeek Hlen.
  unfold _ProtocolDetector.handle_read, bind at 1, try_socket_error, bind at 1.
  rewrite (sock_recv_peek _ _ _ _ Hd), Hpeek. simpl. by rewrite Hlen.
Qed.

Lemma handle_read_would_block self d w disp :
  dispatchers w !! d = Some disp ->
  peek_result (socket disp) (_required_size self) =
    Raise (SocketError EWOULDBLOCK) ->
  _ProtocolDetector.handle_read self d w = (Ok tt, w).
Proof.
  intros Hd Hpeek.
  unfold _ProtocolDetector.handle_read, bind at 1, try_socket_error, bind at 1.
  by rewrite (sock_recv_peek _ _ _ _ Hd), Hpeek.
Qed.

Lemma peek_prefix (s : Socket) (data rest : bytes) n :
  pending_error s = None ->
  rbuf s = data ++ rest ->
  Z.of_nat (length data) = n ->
  0 < n ->
  peek_result s n = Ok data.
Proof.
  intros He Hb Hn Hpos. unfold peek_result. rewrite He, Hb.
  destruct data as [|x data]; [simpl in Hn; lia|].
  simpl app. cbv iota. f_equal.
  rewrite <- Hn, Nat2Z.id.
  change (x :: data ++ rest) with ((x :: data) ++ rest).
  by rewrite take_app_length.
Qed.

(** [handle_read] when the list of detectors is gone: the call raises
    after the deadline test. *)
Lemma handle_read_list_missing self d w disp data :
  dispatchers w !! d = Some disp ->
  peek_result (socket disp) (_required_size self) = Ok data ->
  (Z.of_nat (length data) <? _required_size self) = false ->
  lists w !! _detectors self = None ->
  _ProtocolDetector.handle_read self d w =
  (Raise ReferenceError, after_deadline_test self d disp w).
Proof.
  intros Hd Hpeek Hlen Hds.
  unfold _ProtocolDetector.handle_read, bind at 1, try_socket_error, bind at 1.
  rewrite (sock_recv_peek _ _ _ _ Hd), Hpeek. simpl.
  rewrite Hlen. erewrite bind_ok by done.
  change (clock w >? _give_up_at self) with (timed_out self w).
  unfold after_deadline_test, timeout_events.
  destruct (timed_out self w).
  - erewrite bind_ok; cycle 1.
    { erewrite bind_ok by apply log_spec.
      by rewrite (close_spec d _ disp). }
    rewrite mark_closed_add_events, add_events_app.
    unfold bind, get_list. simpl. by rewrite Hds.
  - erewrite bind_ok by done.
    unfold bind, get_list. by rewrite Hds.
Qed.

(** [handle_read] when the peek raises. *)
Lemma handle_read_peek_raises self d w disp e :
  dispatchers w !! d = Some disp ->
  peek_result (socket disp) (_required_size self) = Raise e ->
  _ProtocolDetector.handle_read self d w =
  match e with
  | SocketError errno =>
    if errno =? EWOULDBLOCK then (Ok tt, w)
    else (Ok tt, add_events (hard_error_events d) (mark_closed d disp w))
  | _ => (Raise e, w)
  end.
Proof.
  intros Hd Hpeek.
  unfold _ProtocolDetector.handle_read, bind at 1, try_socket_error, bind at 1.
  rewrite (sock_recv_peek _ _ _ _ Hd), Hpeek.
  destruct e as [errno| | |]; [|done..].
  destruct (errno =? EWOULDBLOCK); [done|].
  by erewrite bind_ok by (by apply handle_error_spec).
Qed.

(** [handle_read] while the socket holds fewer bytes than required:
    nothing happens, whatever the clock says. *)
Lemma handle_read_too_few self d w disp :
  dispatchers w !! d = Some disp ->
  pending_error (socket disp) = None ->
  Z.of_nat (length (rbuf (socket disp))) < _required_size self ->
  _ProtocolDetector.handle_read self d w = (Ok tt, w).
Proof.
  intros Hd Herr Hlen.
  destruct (rbuf (socket disp)) as [|x l] eqn:Hbuf.
  - destruct (eof (socket disp)) eqn:Heof.
    + apply (handle_read_short _ _ _ disp [] Hd).
      * unfold peek_result. by rewrite Herr, Hbuf, Heof.
      * apply Z.ltb_lt. simpl in *. lia.
    + apply (handle_read_would_block _ _ _ disp Hd).
      unfold peek_result. by rewrite Herr, Hbuf, Heof.
  - apply (handle_read_short _ _ _ disp
             (take (Z.to_nat (_required_size self)) (x :: l)) Hd).
    + unfold peek_result. by rewrite Herr, Hbuf.
    + apply Z.ltb_lt. rewrite length_take. lia.
Qed.

Lemma add_events_none w : w = add_events [] w.
Proof. unfold add_events. rewrite app_nil_r. by destruct w. Qed.

Lemma filter_again {A} (f : A -> bool) (l : list A) :
  List.filter f (List.filter f l) = List.filter f l.
Proof.
  induction l as [|x l IH]; [done|]. simpl.
  destruct (f x) eqn:Hx; [|done]. simpl. by rewrite Hx, IH.
Qed.

Lemma mark_closed_again d disp disp' w :
  socket disp' = socket disp -> impl disp' = impl disp ->
  mark_closed d disp' (mark_closed d disp w) = mark_closed d disp w.
Proof.
  intros Hs Hi. unfold mark_closed. simpl.
  by rewrite insert_insert_eq, filter_again, Hs, Hi.
Qed.

(** Every list of detectors either detects nothing in the data or has a
    first detector that does. *)
Lemma first_match_or_none (data : bytes) (ds : list Detector) :
  Forall (fun x => detect x data = false) ds \/
  exists pre det post,
    ds = pre ++ det :: post /\
    Forall (fun x => detect x data = false) pre /\ detect det data = true.
Proof.
  induction ds as [|x ds IH]; [left; constructor|].
  destruct (detect x data) eqn:Hx.
  - right. exists [], x, ds. by repeat split.
  - destruct IH as [Hnone|(pre & det & post & -> & Hpre & Hdet)].
    + left. by constructor.
    + right. exists (x :: pre), det, post. repeat split; [|done].
      by constructor.
Qed.

(** [handle_read] after the deadline on bytes that a detector detects:
    the dispatcher is closed, and [getpeername()] on its closed socket
    raises before anything is handed over. *)
Lemma handle_read_late_match self d w disp data rest pre det post :
  dispatchers w !! d = Some disp ->
  pending_error (socket disp) = None ->
  rbuf (socket disp) = data ++ rest ->
  Z.of_nat (length data) = _required_size self ->
  0 < _required_size self ->
  lists w !! _detectors self = Some (pre ++ det :: post) ->
  Forall (fun x => detect x data = false) pre ->
  detect det data = true ->
  timed_out self w = true ->
  _ProtocolDetector.handle_read self d w =
    (Raise (SocketError EBADF),
     add_events
       [Log _ProtocolDetector.logger DEBUG "Timed out while waiting for data"
          [];
        Close d]
       (mark_closed d disp w)).
Proof.
  intros Hd Herr Hbuf Hlen Hpos Hds Hpre Hdet Hlate.
  pose proof (peek_prefix _ _ _ _ Herr Hbuf Hlen Hpos) as Hpeek.
  assert ((Z.of_nat (length data) <? _required_size self) = false) as Hfull
    by (apply Z.ltb_ge; lia).
  rewrite (handle_read_full _ _ _ _ _ _ Hd Hpeek Hfull Hds).
  unfold after_deadline_test, timeout_events. rewrite Hlate.
  by rewrite (detect_loop_match _ _ _ _ _ _
             {| socket := socket disp; impl := impl disp; closed := true |}
             (lookup_insert_eq _ _ _) Hpre Hdet).
Qed.

(** The store after any run of [handle_read]: events added, and possibly
    the dispatcher closed.  A run that closes calls no
    [handle_dispatcher]; a run that does not close calls at most one. *)
Lemma handle_read_shape self d w disp :
  dispatchers w !! d = Some disp ->
  exists r evs,
    (_ProtocolDetector.handle_read self d w = (r, add_events evs w) /\
     closes d evs = 0%nat /\ (length (all_handoffs evs) <= 1)%nat) \/
    (_ProtocolDetector.handle_read self d w =
       (r, add_events evs (mark_closed d disp w)) /\
     all_handoffs evs = []).
Proof.
  intros Hd.
  destruct (peek_result (socket disp) (_required_size self)) as [data|e]
    eqn:Hpeek.
  - destruct (Z.of_nat (length data) <? _required_size self) eqn:Hlen.
    + exists (Ok tt), []. left.
      rewrite (handle_read_short _ _ _ _ _ Hd Hpeek Hlen).
      rewrite <- add_events_none.
      split; [done|]. split; [done|simpl; lia].
    + set (disp1 := {| socket := socket disp; impl := impl disp;
                       closed := true |}).
      assert (forall evs,
                dispatchers (add_events evs (mark_closed d disp w)) !! d =
                Some disp1) as Hd1
        by (intros; apply lookup_insert_eq).
      destruct (lists w !! _detectors self) as [ds|] eqn:Hds.
      * rewrite (handle_read_full _ _ _ _ _ _ Hd Hpeek Hlen Hds).
        unfold after_deadline_test, timeout_events.
        destruct (timed_out self w);
          destruct (first_match_or_none data ds)
            as [Hnone|(pre & det & post & -> & Hpre & Hdet)].
        -- rewrite (detect_loop_no_match _ _ _ _ _ (Hd1 _) Hnone).
           eexists _, _. right.
           rewrite mark_closed_add_events, mark_closed_again by done.
           by rewrite add_events_app.
        -- rewrite (detect_loop_match _ _ _ _ _ _ _ (Hd1 _) Hpre Hdet).
           eexists _, _. by right.
        -- rewrite (detect_loop_no_match _ _ _ _ _ Hd Hnone).
           eexists _, _. by right.
        -- rewrite (detect_loop_match _ _ _ _ _ _ _ Hd Hpre Hdet).
           destruct (peer_address d disp w) as [addr|e].
           ++ eexists _, _. left.
              split; [done|]. split; [done|simpl; lia].
           ++ eexists _, []. left. rewrite <- add_events_none.
      split; [done|]. split; [done|simpl; lia].
      * rewrite (handle_read_list_missing _ _ _ _ _ Hd Hpeek Hlen Hds).
        unfold after_deadline_test, timeout_events.
        destruct (timed_out self w).
        -- eexists _, _. by right.
        -- eexists _, []. left. rewrite <- add_events_none.
      split; [done|]. split; [done|simpl; lia].
  - rewrite (handle_read_peek_raises _ _ _ _ _ Hd Hpeek).
    destruct e as [errno| | |].
    + destruct (errno =? EWOULDBLOCK).
      * exists (Ok tt), []. left. rewrite <- add_events_none.
      split; [done|]. split; [done|simpl; lia].
      * eexists _, _. by right.
    + eexists _, []. left. rewrite <- add_events_none.
      split; [done|]. split; [done|simpl; lia].
    + eexists _, []. left. rewrite <- add_events_none.
      split; [done|]. split; [done|simpl; lia].
    + eexists _, []. left. rewrite <- add_events_none.
      split; [done|]. split; [done|simpl; lia].
Qed.

(** A full peek that some detector detects, before the deadline and while
    the address of the peer can be asked: the events of the call hold the
    call of [handle_dispatcher] of the first such detector and of no
    other. *)
Lemma first_match_handoff self d w disp data rest pre post det :
  dispatchers w !! d = Some disp ->
  closed disp = false ->
  d ∉ resets w ->
  timed_out self w = false ->
  pending_error (socket disp) = None ->
  rbuf (socket disp) = data ++ rest ->
  Z.of_nat (length data) = _required_size self ->
  0 < _required_size self ->
  lists w !! _detectors self = Some (pre ++ det :: post) ->
  Forall (fun x => detect x data = false) pre ->
  detect det data = true ->
  _ProtocolDetector.handle_read self d w =
    (Ok tt, add_events (detected_events det d (peername (socket disp))) w).
Proof.
  intros Hd Hopen Hconn Hin Herr Hbuf Hlen Hpos Hds Hpre Hdet.
  pose proof (peek_prefix _ _ _ _ Herr Hbuf Hlen Hpos) as Hpeek.
  assert ((Z.of_nat (length data) <? _required_size self) = false) as Hfull
    by (apply Z.ltb_ge; lia).
  rewrite (handle_read_full _ _ _ _ _ _ Hd Hpeek Hfull Hds).
  unfold after_deadline_test. rewrite Hin.
  rewrite (detect_loop_match _ _ _ _ _ _ _ Hd Hpre Hdet).
  by rewrite peer_address_ok.
Qed.

(** * The claims about the protocol detector *)

(** After the deadline the first detector that detects is not handed the
    dispatcher: the call closes it, [getpeername()] raises on the closed
    socket and no [handle_dispatcher] is called. *)
Lemma C5_late_match_counterexample :
  let self := sample_detector 6 10 in
  let w := detecting_world [xhttp; ping; pi_any] self (b "PINGxx") 11 in
  let run := _ProtocolDetector.handle_read self 0%nat w in
  run.1 = Raise (SocketError EBADF) /\
  trace run.2 =
    [Log "ProtocolDetector.Detector" DEBUG "Timed out while waiting for data"
       [];
     Close 0%nat] /\
  all_handoffs (trace run.2) = [] /\
  ~ first_match_always_handed_off.
Proof.
  intros self w run.
  assert (run.1 = Raise (SocketError EBADF)) as Hrun by reflexivity.
  conjuncts; [done|reflexivity|reflexivity|].
  intros H.
  destruct (H self 0%nat w
              {| socket := client_socket (b "PINGxx");
                 impl := Some (DetectorImpl self); closed := false |}
              (b "PINGxx") [] [xhttp] [pi_any] ping)
    as (w' & evs & Hok & _); try reflexivity.
  - repeat constructor.
  - fold run in Hok. rewrite Hok in Hrun. discriminate.
Qed.

(** C5.  When the peek answers the required number of bytes and some
    registered detector detects them, the deadline has not passed and the
    address of the peer can be asked (the dispatcher is open and the peer
    has not reset the connection), [handle_read] calls
    [handle_dispatcher] of the first such detector in the order of the
    list, once, and of no other detector, whatever the detectors after
    it would answer. *)
Theorem C5_first_match_before_deadline
    (self : _ProtocolDetector) (d : ref) (w : World) (disp : Dispatcher)
    (data rest : bytes) (pre post : list Detector) (det : Detector) :
  dispatchers w !! d = Some disp ->
  closed disp = false ->
  d ∉ resets w ->
  timed_out self w = false ->
  pending_error (socket disp) = None ->
  rbuf (socket disp) = data ++ rest ->
  Z.of_nat (length data) = _required_size self ->
  0 < _required_size self ->
  lists w !! _detectors self = Some (pre ++ det :: post) ->
  Forall (fun x => detect x data = false) pre ->
  detect det data = true ->
  exists w' evs,
    _ProtocolDetector.handle_read self d w = (Ok tt, w') /\
    trace w' = trace w ++ evs /\
    all_handoffs evs = [(det, d)].
Proof.
  intros Hd Hopen Hconn Hin Herr Hbuf Hlen Hpos Hds Hpre Hdet.
  rewrite (first_match_handoff self d w disp data rest pre post det) by done.
  by eexists _, _.
Qed.

Lemma C5_first_match_before_deadline_witness :
  exists w' evs,
    _ProtocolDetector.handle_read (sample_detector 6 10) 0%nat
      (detecting_world [xhttp; ping; pi_any] (sample_detector 6 10)
         (b "PINGxx") 3) = (Ok tt, w') /\
    trace w' = [] ++ evs /\
    all_handoffs evs = [(ping, 0%nat)].
Proof.
  apply (C5_first_match_before_deadline
           (sample_detector 6 10) 0%nat
           (detecting_world [xhttp; ping; pi_any] (sample_detector 6 10)
              (b "PINGxx") 3)
           {| socket := client_socket (b "PINGxx");
              impl := Some (DetectorImpl (sample_detector 6 10));
              closed := false |}
           (b "PINGxx") [] [xhttp] [pi_any] ping).
  - reflexivity.
  - reflexivity.
  - apply not_elem_of_empty.
  - reflexivity.
  - reflexivity.
  - reflexivity.
  - reflexivity.
  - reflexivity.
  - reflexivity.
  - repeat constructor.
  - reflexivity.
Defined.

(** C7.  When the peek answers the required number of bytes and no
    registered detector detects them, [handle_read] logs the bytes at
    warning level and closes the dispatcher, and calls no
    [handle_dispatcher]. *)
Theorem C7_no_match_warns_and_closes
    (self : _ProtocolDetector) (d : ref) (w : World) (disp : Dispatcher)
    (data rest : bytes) (ds : list Detector) :
  dispatchers w !! d = Some disp ->
  pending_error (socket disp) = None ->
  rbuf (socket disp) = data ++ rest ->
  Z.of_nat (length data) = _required_size self ->
  0 < _required_size self ->
  lists w !! _detectors self = Some ds ->
  Forall (fun x => detect x data = false) ds ->
  exists w' disp' evs,
    _ProtocolDetector.handle_read self d w = (Ok tt, w') /\
    trace w' = trace w ++ evs /\
    evs =
      timeout_events self d w ++
      [Log _ProtocolDetector.logger WARNING "Unrecognized protocol: %r"
         [ArgBytes data];
       Close d] /\
    all_handoffs evs = [] /\
    dispatchers w' !! d = Some disp' /\ closed disp' = true.
Proof.
  intros Hd Herr Hbuf Hlen Hpos Hds Hnone.
  pose proof (peek_prefix _ _ _ _ Herr Hbuf Hlen Hpos) as Hpeek.
  assert ((Z.of_nat (length data) <? _required_size self) = false) as Hfull
    by (apply Z.ltb_ge; lia).
  rewrite (handle_read_full _ _ _ _ _ _ Hd Hpeek Hfull Hds).
  destruct (after_deadline_test_dispatcher self d disp w Hd)
    as (disp' & Hd' & Hsock).
  rewrite (detect_loop_no_match _ _ _ _ _ Hd' Hnone).
  eexists _, _, _. split; [done|]. split; [|split; [done|split; [|split]]].
  - simpl. rewrite after_deadline_test_trace, <- app_assoc. done.
  - unfold timeout_events. by destruct (timed_out self w).
  - simpl. apply lookup_insert_eq.
  - done.
Qed.

Lemma C7_no_match_warns_and_closes_witness :
  exists w' disp' evs,
    _ProtocolDetector.handle_read (sample_detector 6 10) 0%nat
      (detecting_world [ping; xhttp] (sample_detector 6 10)
         (b "HELLO!") 3) = (Ok tt, w') /\
    trace w' = [] ++ evs /\
    evs =
      [] ++
      [Log _ProtocolDetector.logger WARNING "Unrecognized protocol: %r"
         [ArgBytes (b "HELLO!")];
       Close 0%nat] /\
    all_handoffs evs = [] /\
    dispatchers w' !! 0%nat = Some disp' /\ closed disp' = true.
Proof.
  apply (C7_no_match_warns_and_closes
           (sample_detector 6 10) 0%nat
           (detecting_world [ping; xhttp] (sample_detector 6 10)
              (b "HELLO!") 3)
           {| socket := client_socket (b "HELLO!");
              impl := Some (DetectorImpl (sample_detector 6 10));
              closed := false |}
           (b "HELLO!") [] [ping; xhttp]).
  - reflexivity.
  - reflexivity.
  - reflexivity.
  - reflexivity.
  - reflexivity.
  - reflexivity.
  - repeat constructor.
Defined.

(** The loop over detectors, whatever they answer and whether or not
    [getpeername()] raises: the socket of the dispatcher is left as it
    is, and a detector whose [handle_dispatcher] is called has detected
    the bytes. *)
Lemma detect_loop_frame d data ds w disp :
  dispatchers w !! d = Some disp ->
  exists r w' disp' evs,
    _ProtocolDetector.detect_loop d data ds w = (r, w') /\
    dispatchers w' !! d = Some disp' /\ socket disp' = socket disp /\
    trace w' = trace w ++ evs /\
    forall det d' addr,
      In (HandleDispatcher det d' addr) evs -> detect det data = true.
Proof.
  intros Hd. induction ds as [|x ds IH].
  - rewrite (detect_loop_no_match _ _ [] _ _ Hd) by constructor.
    eexists _, _, _, _. split; [done|]. simpl. rewrite lookup_insert_eq.
    split; [done|]. split; [done|]. split; [done|].
    intros det d' addr [H|[H|[]]]; discriminate.
  - destruct (detect x data) eqn:Hx.
    + rewrite (detect_loop_match _ _ [] x ds _ _ Hd) by (done || constructor).
      destruct (peer_address d disp w) as [addr0|e].
      * eexists _, _, _, _. split; [done|]. simpl.
        split; [done|]. split; [done|]. split; [done|].
        intros det d' addr [H|[H|[]]]; [discriminate|]. by inversion H; subst.
      * exists (Raise e), w, disp, []. rewrite app_nil_r.
        by conjuncts.
    + simpl. by rewrite Hx.
Qed.

Lemma peek_result_consuming d n w disp data :
  dispatchers w !! d = Some disp ->
  peek_result (socket disp) n = Ok data ->
  forall m, (sock_recv d m 0 w).1 = Ok (take (Z.to_nat m) (rbuf (socket disp))).
Proof.
  intros Hd Hpeek m. unfold sock_recv.
  erewrite bind_ok by (by apply get_dispatcher_ok).
  unfold peek_result in Hpeek.
  destruct (pending_error (socket disp)); [done|].
  destruct (rbuf (socket disp)) eqn:Hbuf.
  - destruct (eof (socket disp)); [|done]. by rewrite take_nil.
  - simpl. unfold bind. done.
Qed.

(** C6.  [handle_read] peeks: whatever it does, the socket of the
    dispatcher, its receive buffer included, is afterwards what it was
    before; and when [handle_dispatcher] of a detector has been called,
    that detector detected the first [_required_size] bytes of that
    buffer, and a consuming [recv] on the socket answers the buffer from
    its first byte on. *)
Theorem C6_peek_does_not_consume
    (self : _ProtocolDetector) (d : ref) (w w' : World) (disp : Dispatcher)
    (r : Result unit) :
  dispatchers w !! d = Some disp ->
  _ProtocolDetector.handle_read self d w = (r, w') ->
  exists disp' evs,
    dispatchers w' !! d = Some disp' /\ socket disp' = socket disp /\
    trace w' = trace w ++ evs /\
    forall det d' addr,
      In (HandleDispatcher det d' addr) evs ->
      detect det (take (Z.to_nat (_required_size self)) (rbuf (socket disp)))
        = true /\
      forall n,
        (sock_recv d n 0 w').1 = Ok (take (Z.to_nat n) (rbuf (socket disp))).
Proof.
  intros Hd Hrun.
  destruct (peek_result (socket disp) (_required_size self)) as [data|e]
    eqn:Hpeek.
  - destruct (Z.of_nat (length data) <? _required_size self) eqn:Hlen.
    + rewrite (handle_read_short _ _ _ _ _ Hd Hpeek Hlen) in Hrun.
      inversion Hrun; subst. exists disp, [].
      rewrite app_nil_r. conjuncts; try done; intros ? ? ? [].
    + destruct (lists w !! _detectors self) as [ds|] eqn:Hds.
      * rewrite (handle_read_full _ _ _ _ _ _ Hd Hpeek Hlen Hds) in Hrun.
        destruct (after_deadline_test_dispatcher self d disp w Hd)
          as (disp1 & Hd1 & Hsock1).
        destruct (detect_loop_frame d data ds _ _ Hd1)
          as (r2 & w2 & disp2 & evs & Hloop & Hd2 & Hsock2 & Htr & Hev).
        rewrite Hloop in Hrun. inversion Hrun; subst.
        exists disp2, (timeout_events self d w ++ evs).
        split; [done|]. split; [congruence|]. split.
        { by rewrite Htr, after_deadline_test_trace, app_assoc. }
        intros det d' addr Hin.
        assert (peek_result (socket disp2) (_required_size self) = Ok data)
          as Hpeek2 by (rewrite Hsock2, Hsock1; done).
        assert (data = take (Z.to_nat (_required_size self))
                         (rbuf (socket disp))) as Hdata.
        { unfold peek_result in Hpeek.
          destruct (pending_error (socket disp)); [done|].
          destruct (rbuf (socket disp)).
          - destruct (eof (socket disp)); [|done].
            rewrite take_nil. congruence.
          - congruence. }
        split.
        -- rewrite <- Hdata. apply in_app_or in Hin as [Hin|Hin].
           ++ unfold timeout_events in Hin.
              destruct (timed_out self w); [|done].
              destruct Hin as [H|[H|[]]]; discriminate.
           ++ by eapply Hev.
        -- intros n.
           rewrite (peek_result_consuming _ _ _ _ _ Hd2 Hpeek2).
           by rewrite Hsock2, Hsock1.
      * (* the list of detectors is gone: the call raises after the
           deadline test *)
        rewrite (handle_read_list_missing _ _ _ _ _ Hd Hpeek Hlen Hds)
          in Hrun.
        inversion Hrun; subst.
        destruct (after_deadline_test_dispatcher self d disp w Hd)
          as (disp1 & Hd1 & Hsock1).
        exists disp1, (timeout_events self d w).
        split; [done|]. split; [done|].
        split; [apply after_deadline_test_trace|].
        intros det d' addr Hin. unfold timeout_events in Hin.
        destruct (timed_out self w); [|done].
        destruct Hin as [H|[H|[]]]; discriminate.
  - (* the peek raised *)
    rewrite (handle_read_peek_raises _ _ _ _ _ Hd Hpeek) in Hrun.
    assert (r = Raise e /\ w' = w \/
            w' = add_events (hard_error_events d) (mark_closed d disp w) \/
            w' = w) as [[_ ->]|[->| ->]].
    { destruct e as [errno| | |]; [|inversion Hrun; auto..].
      destruct (errno =? EWOULDBLOCK); inversion Hrun; auto. }
    + exists disp, []. rewrite app_nil_r.
      conjuncts; try done; intros ? ? ? [].
    + eexists _, (hard_error_events d). simpl. rewrite lookup_insert_eq.
      conjuncts; try done.
      intros det d' addr [H|[H|[H|[]]]]; discriminate.
    + exists disp, []. rewrite app_nil_r.
      conjuncts; try done; intros ? ? ? [].
Qed.

Lemma C6_peek_does_not_consume_witness :
  let w := detecting_world [ping; xhttp] (sample_detector 6 10)
             (b "PINGxx") 3 in
  let w' := (_ProtocolDetector.handle_read (sample_detector 6 10) 0%nat w).2 in
  exists disp' evs,
    dispatchers w' !! 0%nat = Some disp' /\
    socket disp' = client_socket (b "PINGxx") /\
    trace w' = [] ++ evs /\
    forall det d' addr,
      In (HandleDispatcher det d' addr) evs ->
      detect det (take (Z.to_nat 6) (b "PINGxx")) = true /\
      forall n,
        (sock_recv 0%nat n 0 w').1 = Ok (take (Z.to_nat n) (b "PINGxx")).
Proof.
  intros w w'.
  apply (C6_peek_does_not_consume (sample_detector 6 10) 0%nat w w'
           {| socket := client_socket (b "PINGxx");
              impl := Some (DetectorImpl (sample_detector 6 10));
              closed := false |} (Ok tt)).
  - reflexivity.
  - reflexivity.
Defined.

Lemma advance_spec dt w :
  exists w1,
    advance dt w = (Ok tt, w1) /\
    dispatchers w1 = dispatchers w /\ reactor w1 = reactor w /\
    trace w1 = trace w.
Proof. by eexists. Qed.

(** C1.  A connection whose client has sent fewer bytes than the detector
    requires gets neither terminal outcome: however often and however
    late the reactor calls [handle_read], every call returns without an
    event, so that no dispatcher is closed and no [handle_dispatcher] is
    called, and the dispatcher stays as it is and registered. *)
Theorem C1_short_connection_never_ends
    (self : _ProtocolDetector) (d : ref) (disp : Dispatcher)
    (delays : list Z) (w : World) :
  dispatchers w !! d = Some disp ->
  closed disp = false ->
  pending_error (socket disp) = None ->
  Z.of_nat (length (rbuf (socket disp))) < _required_size self ->
  exists w',
    read_repeatedly self d delays w = (Ok tt, w') /\
    trace w' = trace w /\
    closes d (trace w') = closes d (trace w) /\
    handoffs d (trace w') = handoffs d (trace w) /\
    dispatchers w' !! d = Some disp /\
    reactor w' = reactor w.
Proof.
  intros Hd _ Herr Hlen. revert w Hd.
  induction delays as [|dt delays IH]; intros w Hd.
  - exists w. by conjuncts.
  - destruct (advance_spec dt w) as (w1 & Hadv & Hd1 & Hr1 & Ht1).
    simpl. erewrite bind_ok by exact Hadv.
    erewrite bind_ok; cycle 1.
    { apply (handle_read_too_few self d w1 disp); [|done..].
      by rewrite Hd1. }
    destruct (IH w1) as (w' & Hrun & Htr & _ & _ & Hd' & Hr'); [by rewrite Hd1|].
    exists w'. rewrite Hrun, Htr, Hd', Hr', Ht1, Hr1. by conjuncts.
Qed.

Lemma C1_short_connection_never_ends_witness :
  exists w',
    read_repeatedly (sample_detector 6 10) 0%nat [5; 100; 1000]
      (detecting_world [ping; xhttp] (sample_detector 6 10) (b "PI") 0)
      = (Ok tt, w') /\
    trace w' = [] /\
    closes 0%nat (trace w') = 0%nat /\
    handoffs 0%nat (trace w') = [] /\
    dispatchers w' !! 0%nat =
      Some {| socket := client_socket (b "PI");
              impl := Some (DetectorImpl (sample_detector 6 10));
              closed := false |} /\
    reactor w' = [0%nat].
Proof.
  apply (C1_short_connection_never_ends (sample_detector 6 10) 0%nat
           {| socket := client_socket (b "PI");
              impl := Some (DetectorImpl (sample_detector 6 10));
              closed := false |}
           [5; 100; 1000]
           (detecting_world [ping; xhttp] (sample_detector 6 10) (b "PI") 0)).
  - reflexivity.
  - reflexivity.
  - reflexivity.
  - vm_compute. reflexivity.
Defined.

(** C3.  After its deadline a detector that has received fewer than the
    required bytes, or none, returns from [handle_read] with the
    dispatcher open and nothing logged: the test of the deadline comes
    after the test of the length. *)
Theorem C3_short_data_after_deadline_stays_open :
  let short := read_after [ping; xhttp] 10 (b "PI") 100
                 (world0 [ping; xhttp]) in
  let silent := read_after [ping; xhttp] 10 [] 100 (world0 [ping; xhttp]) in
  (short.1 = Ok tt /\
   trace short.2 =
     [Log "ProtocolDetector.Detector" DEBUG "Using required_size=%d"
        [ArgInt 6]] /\
   closes 0%nat (trace short.2) = 0%nat /\
   closed <$> dispatchers short.2 !! 0%nat = Some false) /\
  (silent.1 = Ok tt /\
   trace silent.2 =
     [Log "ProtocolDetector.Detector" DEBUG "Using required_size=%d"
        [ArgInt 6]] /\
   closes 0%nat (trace silent.2) = 0%nat /\
   closed <$> dispatchers silent.2 !! 0%nat = Some false).
Proof. vm_compute. repeat split; reflexivity. Qed.

(** [next_check_interval] never answers a positive duration. *)
Lemma next_check_interval_not_positive (self : _ProtocolDetector) (w : World) :
  exists v, _ProtocolDetector.next_check_interval self w = (Ok v, w) /\ v <= 0.
Proof.
  eexists. split; [reflexivity|]. apply Z.le_min_r.
Qed.

(** C4.  With the deadline 7 ticks ahead, [next_check_interval] answers 0,
    not the 7 ticks that remain. *)
Theorem C4_next_check_interval_future_deadline :
  let self := sample_detector 6 10 in
  let w := detecting_world [ping; xhttp] self [] 3 in
  (_ProtocolDetector.next_check_interval self w).1 = Ok 0 /\
  Z.max (_give_up_at self - clock w) 0 = 7.
Proof. split; reflexivity. Qed.

(** * The claims about the acceptor *)

Lemma get_list_ok r w l :
  lists w !! r = Some l -> get_list r w = (Ok l, w).
Proof. intros H. unfold get_list. by rewrite H. Qed.

(** The constructor of the detector on a list that has detectors. *)
Lemma ProtocolDetector_init_ok detectors timeout w x xs :
  lists w !! detectors = Some (x :: xs) ->
  _ProtocolDetector.__init__ detectors (Some timeout) w =
  (Ok {| _detectors := detectors;
         _required_size := fold_left Z.max (map REQUIRED_SIZE xs)
                             (REQUIRED_SIZE x);
         _give_up_at := clock w + timeout |},
   add_events
     [Log _ProtocolDetector.logger DEBUG "Using required_size=%d"
        [ArgInt (fold_left Z.max (map REQUIRED_SIZE xs) (REQUIRED_SIZE x))]]
     w).
Proof.
  intros H. unfold _ProtocolDetector.__init__.
  erewrite bind_ok by (by apply get_list_ok). simpl.
  erewrite bind_ok by done.
  erewrite bind_ok by apply log_spec.
  by erewrite bind_ok by done.
Qed.

(** The constructor of the detector on a list without detectors. *)
Lemma ProtocolDetector_init_empty detectors timeout w :
  lists w !! detectors = Some [] ->
  _ProtocolDetector.__init__ detectors timeout w =
  (Raise (ValueError "max() arg is an empty sequence"), w).
Proof.
  intros H. unfold _ProtocolDetector.__init__.
  by erewrite bind_ok by (by apply get_list_ok).
Qed.

(** [max] answers an upper bound of the sequence that is one of its
    elements. *)
Lemma fold_max_spec (xs : list Z) (x : Z) :
  let m := fold_left Z.max xs x in
  In m (x :: xs) /\ Forall (fun y => y <= m) (x :: xs).
Proof.
  revert x. induction xs as [|y xs IH]; intros x; simpl.
  - split; [by left|]. constructor; [lia|constructor].
  - destruct (IH (Z.max x y)) as [Hin Hall]. simpl in Hin.
    apply Forall_cons in Hall as [Hxy Hall]. split.
    + destruct Hin as [Hin|Hin]; [|by right; right].
      rewrite <- Hin. destruct (Z.max_spec x y) as [[_ ->]|[_ ->]]; auto.
    + constructor; [lia|]. constructor; [lia|done].
Qed.

Lemma register_protocol_detector_ok self d w disp x xs :
  dispatchers w !! d = Some disp ->
  lists w !! _handlers self = Some (x :: xs) ->
  exists w' p,
    MultiProtocolAcceptor._register_protocol_detector self d w = (Ok d, w') /\
    dispatchers w' =
      <[d := {| socket := socket disp; impl := Some (DetectorImpl p);
                closed := closed disp |}]> (dispatchers w) /\
    lists w' = lists w /\ reactor w' = reactor w /\ clock w' = clock w /\
    _detectors p = _handlers self /\
    _required_size p =
      fold_left Z.max (map REQUIRED_SIZE xs) (REQUIRED_SIZE x) /\
    _give_up_at p = clock w + TIMEOUT self.
Proof.
  intros Hd Hl. unfold MultiProtocolAcceptor._register_protocol_detector.
  erewrite bind_ok by (by apply ProtocolDetector_init_ok).
  unfold Dispatcher.switch_implementation.
  erewrite bind_ok; cycle 1.
  { by erewrite bind_ok by (by apply get_dispatcher_ok). }
  eexists _, _. split; [reflexivity|]. simpl. conjuncts; reflexivity.
Qed.

(** C2 as the claim has it fails: a handshake that starts at time 0 with a
    timeout of 10 and succeeds at time 4 installs a detector that gives
    up at 14. *)
Lemma C2_deadline_reset_counterexample : ~ deadline_kept_on_switch.
Proof.
  intros H.
  pose (w1 := (do! MultiProtocolAcceptor.handle_accept (acceptor (Some 1%nat) 10)
                     (client_socket []) in advance 4)
                (world0 [ping])).
  destruct (H 0%nat w1.2 (handshake_finished 0%nat w1.2).2
              {| socket := client_socket [];
                 impl := Some (HandshakeImpl
                   {| ssl_ctx := 1%nat;
                      ssl_handshake_finished_handler :=
                        acceptor (Some 1%nat) 10;
                      ssl_give_up_at := 10 |});
                 closed := false |}
              {| ssl_ctx := 1%nat;
                 ssl_handshake_finished_handler := acceptor (Some 1%nat) 10;
                 ssl_give_up_at := 10 |})
    as (disp' & p & Hd & Himpl & Hgive).
  - reflexivity.
  - reflexivity.
  - reflexivity.
  - vm_compute in Hd. inversion Hd; subst disp'.
    simpl in Himpl. inversion Himpl; subst p. simpl in Hgive. lia.
Qed.

(** C2, amended.  When the handshake of a dispatcher succeeds, the
    detector installed on it gives up [TIMEOUT] after the moment of the
    switch: the deadline is computed anew from the clock. *)
Theorem C2_deadline_recomputed_on_switch
    (d : ref) (w : World) (disp : Dispatcher) (h : SSLHandshakeDispatcher)
    (x : Detector) (xs : list Detector) :
  dispatchers w !! d = Some disp ->
  impl disp = Some (HandshakeImpl h) ->
  lists w !! _handlers (ssl_handshake_finished_handler h) = Some (x :: xs) ->
  exists w' disp' p,
    handshake_finished d w = (Ok tt, w') /\
    dispatchers w' !! d = Some disp' /\
    socket disp' = socket disp /\
    impl disp' = Some (DetectorImpl p) /\
    _give_up_at p = clock w + TIMEOUT (ssl_handshake_finished_handler h).
Proof.
  intros Hd Himpl Hl.
  destruct (register_protocol_detector_ok _ d w disp x xs Hd Hl)
    as (w' & p & Hrun & Hdisp & _ & _ & _ & _ & _ & Hgive).
  exists w', {| socket := socket disp; impl := Some (DetectorImpl p);
                closed := closed disp |}, p.
  unfold handshake_finished.
  erewrite bind_ok by (by apply get_dispatcher_ok).
  rewrite Himpl. erewrite bind_ok by done.
  conjuncts; try done. rewrite Hdisp. apply lookup_insert_eq.
Qed.

Lemma C2_deadline_recomputed_on_switch_witness :
  let self := acceptor (Some 1%nat) 10 in
  let w := (do! MultiProtocolAcceptor.handle_accept self (client_socket []) in
            advance 4) (world0 [ping]) in
  exists w' disp' p,
    handshake_finished 0%nat w.2 = (Ok tt, w') /\
    dispatchers w' !! 0%nat = Some disp' /\
    socket disp' = client_socket [] /\
    impl disp' = Some (DetectorImpl p) /\
    _give_up_at p = 4 + 10.
Proof.
  intros self w.
  apply (C2_deadline_recomputed_on_switch 0%nat w.2
           {| socket := client_socket [];
              impl := Some (HandshakeImpl
                {| ssl_ctx := 1%nat;
                   ssl_handshake_finished_handler := self;
                   ssl_give_up_at := 10 |});
              closed := false |}
           {| ssl_ctx := 1%nat;
              ssl_handshake_finished_handler := self;
              ssl_give_up_at := 10 |}
           ping []).
  - reflexivity.
  - reflexivity.
  - reflexivity.
Defined.

Lemma add_detector_ok self detector w l :
  lists w !! _handlers self = Some l ->
  exists w',
    MultiProtocolAcceptor.add_detector self detector w = (Ok tt, w') /\
    lists w' = <[_handlers self := l ++ [detector]]> (lists w) /\
    dispatchers w' = dispatchers w /\ reactor w' = reactor w.
Proof.
  intros Hl. unfold MultiProtocolAcceptor.add_detector.
  erewrite bind_ok by apply log_spec.
  erewrite bind_ok by (by apply get_list_ok).
  eexists. split; [reflexivity|]. done.
Qed.

(** Detectors added later reach the list object alone. *)
Lemma add_detectors_ok self extra : forall w l,
  lists w !! _handlers self = Some l ->
  exists w',
    add_detectors self extra w = (Ok tt, w') /\
    lists w' !! _handlers self = Some (l ++ extra) /\
    dispatchers w' = dispatchers w /\ reactor w' = reactor w.
Proof.
  induction extra as [|detector extra IH]; intros w l Hl; simpl.
  - exists w. by rewrite app_nil_r.
  - destruct (add_detector_ok self detector w l Hl)
      as (w1 & Hadd & Hl1 & Hd1 & Hr1).
    erewrite bind_ok by done.
    destruct (IH w1 (l ++ [detector])) as (w2 & Hrun & Hl2 & Hd2 & Hr2).
    { rewrite Hl1. apply lookup_insert_eq. }
    exists w2. rewrite <- app_assoc in Hl2. simpl in Hl2.
    conjuncts; [done|done|congruence|congruence].
Qed.

(** C10.  A plain acceptor that accepts a connection while its list of
    detectors is empty raises [ValueError] from the constructor of the
    detector and registers nothing; with detectors in the list, the new
    handle records as required size the largest [REQUIRED_SIZE] among the
    detectors registered at that moment, and detectors added afterwards
    (which do reach the list the handle shares with the acceptor) leave
    the handle and its required size as they are. *)
Theorem C10_required_size_fixed_at_creation
    (self : MultiProtocolAcceptor) (client : Socket) (w : World)
    (ds : list Detector) :
  _sslctx self = None ->
  lists w !! _handlers self = Some ds ->
  match ds with
  | [] =>
    exists w',
      MultiProtocolAcceptor.handle_accept self client w =
        (Raise (ValueError "max() arg is an empty sequence"), w') /\
      reactor w' = reactor w
  | x :: xs =>
    exists w' d p,
      MultiProtocolAcceptor.handle_accept self client w = (Ok tt, w') /\
      reactor w' = reactor w ++ [d] /\
      dispatchers w' !! d =
        Some {| socket := client; impl := Some (DetectorImpl p);
                closed := false |} /\
      _detectors p = _handlers self /\
      _required_size p =
        fold_left Z.max (map REQUIRED_SIZE xs) (REQUIRED_SIZE x) /\
      forall extra,
        exists w'',
          add_detectors self extra w' = (Ok tt, w'') /\
          lists w'' !! _detectors p = Some (x :: xs ++ extra) /\
          dispatchers w'' !! d = dispatchers w' !! d
  end.
Proof.
  intros Hplain Hl. unfold MultiProtocolAcceptor.handle_accept.
  rewrite Hplain. unfold Dispatcher.__init__.
  set (d := fresh (dom (dispatchers w))).
  set (disp := {| socket := client; impl := None; closed := false |}).
  set (w0 := {| clock := clock w; lists := lists w;
                dispatchers := <[d := disp]> (dispatchers w);
                reactor := reactor w; resets := resets w; trace := trace w |}).
  assert (new_dispatcher disp w = (Ok d, w0)) as Hnew by done.
  erewrite bind_ok by exact Hnew.
  destruct ds as [|x xs].
  - unfold MultiProtocolAcceptor._register_protocol_detector.
    eexists. unfold bind at 1, bind at 1.
    rewrite (ProtocolDetector_init_empty _ _ w0) by done. done.
  - destruct (register_protocol_detector_ok self d w0 disp x xs)
      as (w1 & p & Hrun & Hdisp & Hlists & Hreact & _ & Hdet & Hsize & _).
    { apply lookup_insert_eq. }
    { done. }
    erewrite bind_ok by exact Hrun.
    eexists _, d, p. split; [reflexivity|]. simpl.
    split; [by rewrite Hreact|]. split.
    { rewrite Hdisp. apply lookup_insert_eq. }
    split; [done|]. split; [done|].
    intros extra.
    destruct (add_detectors_ok self extra
                {| clock := clock w1; lists := lists w1;
                   dispatchers := dispatchers w1;
                   reactor := reactor w1 ++ [d];
                   resets := resets w1; trace := trace w1 |}
                (x :: xs)) as (w2 & Hadd & Hl2 & Hd2 & _).
    { simpl. by rewrite Hlists. }
    exists w2. split; [done|]. rewrite Hdet. split; [done|]. by rewrite Hd2.
Qed.

Lemma C10_required_size_fixed_at_creation_witness :
  exists w' d p,
    MultiProtocolAcceptor.handle_accept (acceptor None 10)
      (client_socket []) (world0 [ping; xhttp]) = (Ok tt, w') /\
    reactor w' = [] ++ [d] /\
    dispatchers w' !! d =
      Some {| socket := client_socket []; impl := Some (DetectorImpl p);
              closed := false |} /\
    _detectors p = 0%nat /\
    _required_size p = 6 /\
    forall extra,
      exists w'',
        add_detectors (acceptor None 10) extra w' = (Ok tt, w'') /\
        lists w'' !! _detectors p = Some (ping :: [xhttp] ++ extra) /\
        dispatchers w'' !! d = dispatchers w' !! d.
Proof.
  apply (C10_required_size_fixed_at_creation (acceptor None 10)
           (client_socket []) (world0 [ping; xhttp]) [ping; xhttp]).
  - reflexivity.
  - reflexivity.
Defined.

(** The first half of C10 on an acceptor without detectors. *)
Example handle_accept_without_detectors :
  let r := MultiProtocolAcceptor.handle_accept (acceptor None 10)
             (client_socket (b "PINGxx")) (world0 []) in
  r.1 = Raise (ValueError "max() arg is an empty sequence") /\
  reactor r.2 = [] /\ trace r.2 = [].
Proof. vm_compute. repeat split; reflexivity. Qed.

(** A detector added after a handle was created does not change the
    required size of the handle, though the handle iterates over it. *)
Example late_detector_keeps_required_size :
  let long := {| NAME := "long"; REQUIRED_SIZE := 8;
                 detect := startswith (b "LONGLONG") |} in
  let w := (do! MultiProtocolAcceptor.handle_accept (acceptor None 10)
                  (client_socket (b "LONGLONG")) in
            MultiProtocolAcceptor.add_detector (acceptor None 10) long)
             (world0 [ping; xhttp]) in
  (_required_size <$>
     (match impl <$> dispatchers w.2 !! 0%nat with
      | Some (Some (DetectorImpl p)) => Some p
      | _ => None
      end)) = Some 6 /\
  (map NAME <$> lists w.2 !! 0%nat) = Some ["ping"; "xhttp"; "long"].
Proof. vm_compute. split; reflexivity. Qed.

(** * The claims about the readers-writer lock *)

Section RWLockFacts.

Import RWLock.

(** C8.  On a lock held in shared mode, [acquire_exclusive] by one of
    the holders raises the programmer error and leaves the lock, the
    caller's shared entry included, as it was. *)
Theorem C8_promotion_refused (s : state) (t : identity) :
  current_owner_mode s = Some shared ->
  is_Some (shared_holders s !! t) ->
  acquire_exclusive t s = (s, ProgrammerError).
Proof.
  intros Hmode [n Hn]. unfold acquire_exclusive, is_exclusive_holder.
  unfold current_owner_mode in Hmode.
  destruct (exclusive_holder s); [discriminate|]. by rewrite Hn.
Qed.

Lemma C8_promotion_refused_witness :
  acquire_exclusive 1%nat (run [(1%nat, AcquireShared)] init) =
  (run [(1%nat, AcquireShared)] init, ProgrammerError).
Proof.
  apply (C8_promotion_refused (run [(1%nat, AcquireShared)] init) 1%nat).
  - reflexivity.
  - exists 1%positive. reflexivity.
Defined.

(** ** The queue discipline *)

Lemma grant_shared_spec : forall q h,
  exists granted,
    q = granted ++ (grant_shared q h).2 /\
    forall u, u ∉ granted.*1 -> (grant_shared q h).1 !! u = h !! u.
Proof.
  induction q as [|[t m] q IH]; intros h; simpl.
  - by exists [].
  - destruct m.
    + destruct (IH (<[t := 1%positive]> h)) as (g & Hq & Hh).
      exists ((t, shared) :: g). split; [simpl; by f_equal|].
      intros u Hu. simpl in Hu. apply not_elem_of_cons in Hu as [Hne Hu].
      rewrite Hh by done. by apply lookup_insert_ne.
    + by exists [].
Qed.

(** Granting shared waiters stops in front of an exclusive waiter. *)
Lemma grant_shared_stops A q2 : forall q1 h,
  exists r1,
    (grant_shared (q1 ++ (A, exclusive) :: q2) h).2 =
    r1 ++ (A, exclusive) :: q2.
Proof.
  induction q1 as [|[t m] q1 IH]; intros h; simpl.
  - by exists [].
  - destruct m; [apply IH|]. by exists ((t, exclusive) :: q1).
Qed.

Lemma wf_same_queue s s' :
  wait_queue s' = wait_queue s ->
  (forall u, waiting u s -> holds u s' -> holds u s) ->
  wf s -> wf s'.
Proof.
  intros Hq Hh [Hnd Hwh]. split; [by rewrite Hq|].
  intros u Hu Hholds. unfold waiting in Hu. rewrite Hq in Hu.
  by apply (Hwh u Hu), Hh.
Qed.

Lemma wf_enqueue s t m :
  wf s -> ~ waiting t s -> ~ holds t s -> wf (enqueue t m s).
Proof.
  intros [Hnd Hwh] Hw Hh. split; simpl.
  - rewrite fmap_app. apply NoDup_app. split; [done|]. split.
    + intros u Hu Ht. simpl in Ht. apply list_elem_of_singleton in Ht.
      by subst.
    + simpl. apply NoDup_singleton.
  - intros u Hu. unfold waiting in Hu. simpl in Hu.
    rewrite fmap_app in Hu. apply elem_of_app in Hu as [Hu|Hu].
    + by apply Hwh.
    + simpl in Hu. apply list_elem_of_singleton in Hu. by subst.
Qed.

Lemma holds_set_shared_insert s t v u :
  u <> t ->
  holds u (set_shared (<[t := v]> (shared_holders s)) s) -> holds u s.
Proof.
  intros Hne [He|Hs]; [by left|right].
  simpl in Hs. by rewrite lookup_insert_ne in Hs.
Qed.

Lemma holds_set_shared_delete s t u :
  holds u (set_shared (delete t (shared_holders s)) s) -> holds u s.
Proof.
  intros [He|[x Hs]]; [by left|right]. simpl in Hs.
  apply lookup_delete_Some in Hs as [_ Hs]. by eexists.
Qed.

Lemma grant_wf s : wf s -> wf (grant s).
Proof.
  intros Hwf. pose proof Hwf as [Hnd Hwh]. unfold grant.
  destruct (wait_queue s) as [|[t m] q] eqn:Hq; [done|].
  unfold waiting in Hwh. rewrite Hq in Hwh. destruct m.
  - destruct (exclusive_holder s) eqn:He; [done|].
    destruct (grant_shared_spec ((t, shared) :: q) (shared_holders s))
      as (g & Hsplit & Hh).
    destruct (grant_shared ((t, shared) :: q) (shared_holders s))
      as [h q'] eqn:Hg.
    simpl in Hsplit, Hh. rewrite Hsplit in Hnd, Hwh.
    rewrite fmap_app in Hnd, Hwh. apply NoDup_app in Hnd as (_ & Hdisj & Hnd).
    split; [done|]. intros u Hu [Hex|Hsh]; [done|].
    unfold waiting in Hu. simpl in Hu, Hsh.
    rewrite Hh in Hsh by (intros Hin; by apply (Hdisj u Hin)).
    apply (Hwh u); [apply elem_of_app; by right|by right].
  - destruct (current_owner_mode s) eqn:Hm; [done|].
    simpl in Hnd. apply NoDup_cons in Hnd as [Hnotin Hnd].
    split; [done|]. intros u Hu [Hex|Hsh].
    + unfold waiting in Hu. simpl in Hu.
      unfold is_exclusive_holder in Hex. simpl in Hex.
      apply bool_decide_eq_true in Hex. by subst.
    + apply (Hwh u); [apply elem_of_cons; by right|by right].
Qed.

Lemma acquire_shared_wf t s :
  wf s -> ~ waiting t s -> wf (acquire_shared t s).1.
Proof.
  intros Hwf Hw. unfold acquire_shared.
  assert (forall v, wf (set_shared (<[t := v]> (shared_holders s)) s)) as Hins.
  { intros v. apply (wf_same_queue s); [done| |done].
    intros u Hu. apply holds_set_shared_insert. by intros ->. }
  destruct (shared_holders s !! t) eqn:Hs; [apply Hins|].
  destruct (is_exclusive_holder t s) eqn:He; [apply Hins|].
  assert (~ holds t s) as Hh.
  { intros [H|[x H]]; congruence. }
  destruct (exclusive_holder s); [by apply wf_enqueue|].
  destruct (has_exclusive_waiter s); [by apply wf_enqueue|apply Hins].
Qed.

Lemma acquire_exclusive_wf t s :
  wf s -> ~ waiting t s -> wf (acquire_exclusive t s).1.
Proof.
  intros Hwf Hw. unfold acquire_exclusive.
  destruct (is_exclusive_holder t s) eqn:He.
  - destruct (exclusive_holder s) as [[t' n]|] eqn:Hx; [|done].
    apply (wf_same_queue s); [done| |done].
    intros u Hu [H|H]; [left|by right].
    unfold is_exclusive_holder in *. rewrite Hx in *. simpl in H.
    apply bool_decide_eq_true in He, H. apply bool_decide_eq_true. congruence.
  - destruct (shared_holders s !! t) eqn:Hs; [done|].
    assert (~ holds t s) as Hh.
    { intros [H|[x H]]; congruence. }
    destruct (current_owner_mode s); [by apply wf_enqueue|].
    destruct (wait_queue s) eqn:Hq; [|by apply wf_enqueue].
    split; [simpl; rewrite Hq; constructor|].
    intros u Hu. unfold waiting in Hu. simpl in Hu. rewrite Hq in Hu.
    by apply elem_of_nil in Hu.
Qed.

Lemma release_wf t s : wf s -> wf (release t s).1.
Proof.
  intros Hwf. unfold release.
  destruct (is_exclusive_holder t s) eqn:He.
  - destruct (exclusive_holder s) as [[t' n]|] eqn:Hx; [|done].
    simpl. apply grant_wf, (wf_same_queue s); [done| |done].
    intros u Hu [H|H]; [left|by right].
    unfold is_exclusive_holder in *. rewrite Hx in *. simpl in H.
    destruct (decrement n); [|done]. simpl in H.
    apply bool_decide_eq_true in He, H. apply bool_decide_eq_true. congruence.
  - destruct (shared_holders s !! t) as [n|] eqn:Hs; [|done].
    simpl. apply grant_wf, (wf_same_queue s); [done| |done].
    intros u Hu. destruct (decrement n).
    + destruct (decide (u = t)) as [->|Hne].
      * intros _. right. by eexists.
      * by apply holds_set_shared_insert.
    + apply holds_set_shared_delete.
Qed.

Lemma step_wf s tc : wf s -> wf (step s tc).
Proof.
  intros Hwf. unfold step. destruct (decide (waiting tc.1 s)); [done|].
  destruct tc as [t []]; simpl in *.
  - by apply acquire_shared_wf.
  - by apply acquire_exclusive_wf.
  - by apply release_wf.
Qed.

Lemma run_wf calls : forall s, wf s -> wf (run calls s).
Proof.
  induction calls as [|tc calls IH]; intros s Hwf; [done|].
  simpl. by apply IH, step_wf.
Qed.

Lemma init_wf : wf init.
Proof.
  split; [constructor|]. intros t Ht. by apply elem_of_nil in Ht.
Qed.

Lemma behind_same_queue A B s s' :
  wait_queue s' = wait_queue s ->
  behind_exclusive A B s -> behind_exclusive A B s'.
Proof. intros Hq (q1 & q2 & Hs & HB). exists q1, q2. by rewrite Hq. Qed.

Lemma behind_enqueue A B s t m :
  behind_exclusive A B s -> behind_exclusive A B (enqueue t m s).
Proof.
  intros (q1 & q2 & Hs & HB). exists q1, (q2 ++ [(t, m)]). simpl.
  rewrite Hs, <- app_assoc. split; [done|].
  rewrite fmap_app. apply elem_of_app. by left.
Qed.

Lemma behind_waiting A B s :
  wf s -> behind_exclusive A B s -> waiting B s /\ ~ holds B s.
Proof.
  intros [_ Hwh] (q1 & q2 & Hs & HB).
  assert (waiting B s) as Hw.
  { unfold waiting. rewrite Hs, fmap_app. apply elem_of_app. right.
    simpl. apply elem_of_cons. by right. }
  split; [done|by apply Hwh].
Qed.

(** A request leaves the queue as it is or joins it at the tail. *)
Lemma acquire_queue c t s :
  c <> Release ->
  wait_queue (perform c t s).1 = wait_queue s \/
  exists m, (perform c t s).1 = enqueue t m s.
Proof.
  intros Hc. destruct c; [| |done]; simpl.
  - unfold acquire_shared.
    destruct (shared_holders s !! t); [by left|].
    destruct (is_exclusive_holder t s); [by left|].
    destruct (exclusive_holder s); [right; by eexists|].
    destruct (has_exclusive_waiter s); [right; by eexists|by left].
  - unfold acquire_exclusive.
    destruct (is_exclusive_holder t s).
    { destruct (exclusive_holder s) as [[? ?]|]; by left. }
    destruct (shared_holders s !! t); [by left|].
    destruct (current_owner_mode s); [right; by eexists|].
    destruct (wait_queue s) eqn:Hq; [left; simpl; by rewrite Hq|].
    right; by eexists.
Qed.

(** The granting rule pops waiters in front of the exclusive waiter [A]
    or [A] itself, never a waiter behind it. *)
Lemma grant_behind A B s :
  wf s -> behind_exclusive A B s -> waiting A (grant s) ->
  behind_exclusive A B (grant s).
Proof.
  intros [Hnd _] (q1 & q2 & Hs & HB). unfold waiting, grant.
  rewrite Hs in Hnd. rewrite Hs.
  destruct q1 as [|[t m] q1]; simpl.
  - destruct (current_owner_mode s); [intros _; by exists [], q2|].
    simpl. intros HA. simpl in Hnd. by apply NoDup_cons in Hnd as [? _].
  - intros _. destruct m.
    + destruct (exclusive_holder s);
        [by exists ((t, shared) :: q1), q2|].
      destruct (grant_shared_stops A q2 q1
                  (<[t := 1%positive]> (shared_holders s))) as [r1 Hr1].
      destruct (grant_shared (q1 ++ (A, exclusive) :: q2)
                  (<[t := 1%positive]> (shared_holders s))) as [h q'].
      simpl in Hr1. subst q'. by exists r1, q2.
    + destruct (current_owner_mode s);
        [by exists ((t, exclusive) :: q1), q2|].
      by exists q1, q2.
Qed.

Lemma release_behind A B t s :
  wf s -> behind_exclusive A B s -> waiting A (release t s).1 ->
  behind_exclusive A B (release t s).1.
Proof.
  intros Hwf Hb. pose proof (release_wf t s Hwf) as Hwf'. revert Hwf'.
  unfold release.
  destruct (is_exclusive_holder t s) eqn:He.
  - destruct (exclusive_holder s) as [[t' n]|] eqn:Hx; [|done].
    simpl. intros _ HA. apply grant_behind; [|by eapply behind_same_queue|done].
    apply (wf_same_queue s); [done| |done].
    intros u Hu [H|H]; [left|by right].
    unfold is_exclusive_holder in *. rewrite Hx in *. simpl in H.
    destruct (decrement n); [|done]. simpl in H.
    apply bool_decide_eq_true in He, H. apply bool_decide_eq_true. congruence.
  - destruct (shared_holders s !! t) as [n|] eqn:Hs; [|done].
    simpl. intros _ HA. apply grant_behind; [|by eapply behind_same_queue|done].
    apply (wf_same_queue s); [done| |done].
    intros u Hu. destruct (decrement n).
    + destruct (decide (u = t)) as [->|Hne].
      * intros _. right. by eexists.
      * by apply holds_set_shared_insert.
    + apply holds_set_shared_delete.
Qed.

Lemma step_behind A B s tc :
  wf s -> behind_exclusive A B s -> waiting A (step s tc) ->
  behind_exclusive A B (step s tc).
Proof.
  intros Hwf Hb. unfold step.
  destruct (decide (waiting tc.1 s)); [done|].
  destruct tc as [t c]. simpl.
  assert (c = Release \/ c <> Release) as [->|Hc]
    by (destruct c; [right|right|left]; done).
  - by apply release_behind.
  - intros _. destruct (acquire_queue c t s Hc) as [Hq|[m ->]].
    + by eapply behind_same_queue.
    + by apply behind_enqueue.
Qed.

Lemma run_behind A B calls : forall s,
  wf s -> behind_exclusive A B s ->
  (forall n, waiting A (run (take n calls) s)) ->
  wf (run calls s) /\ behind_exclusive A B (run calls s).
Proof.
  induction calls as [|tc calls IH]; intros s Hwf Hb HA; [done|].
  simpl. apply IH.
  - by apply step_wf.
  - apply step_behind; [done..|]. apply (HA 1%nat).
  - intros n. apply (HA (S n)).
Qed.

(** A request that arrives while an exclusive waiter is in the queue
    joins the queue. *)
Lemma acquire_behind_exclusive A B c s :
  (A, exclusive) ∈ wait_queue s ->
  ~ holds B s -> c <> Release ->
  perform c B s = (enqueue B match c with
                             | AcquireShared => shared
                             | _ => exclusive
                             end s, Suspended).
Proof.
  intros HA Hh Hc.
  assert (shared_holders s !! B = None) as Hs.
  { destruct (shared_holders s !! B) eqn:H; [|done].
    exfalso. apply Hh. right. by eexists. }
  assert (is_exclusive_holder B s = false) as He.
  { destruct (is_exclusive_holder B s) eqn:H; [|done].
    exfalso. apply Hh. by left. }
  destruct c; [| |done]; simpl.
  - unfold acquire_shared. rewrite Hs, He.
    destruct (exclusive_holder s); [done|].
    assert (has_exclusive_waiter s = true) as ->; [|done].
    apply existsb_exists. exists (A, exclusive).
    split; [by apply list_elem_of_In|done].
  - unfold acquire_exclusive. rewrite Hs, He.
    destruct (current_owner_mode s); [done|].
    destruct (wait_queue s); [by apply elem_of_nil in HA|done].
Qed.

(** C9.  While an exclusive request of [A] waits in the queue, a request
    of another caller [B], shared or exclusive, does not return but joins
    the queue; and whatever calls follow, as long as [A] has not left the
    queue, [B] is still waiting and holds nothing. *)
Theorem C9_fifo_exclusive_waiter_first
    (s : state) (A B : identity) (c : call)
    (calls : list (identity * call)) :
  wf s ->
  (A, exclusive) ∈ wait_queue s ->
  ~ holds B s -> ~ waiting B s ->
  c <> Release ->
  (forall n, waiting A (run (take n calls) (step s (B, c)))) ->
  (perform c B s).2 = Suspended /\
  waiting B (run calls (step s (B, c))) /\
  ~ holds B (run calls (step s (B, c))).
Proof.
  intros Hwf HA Hh Hw Hc Hstill.
  pose proof (acquire_behind_exclusive A B c s HA Hh Hc) as Hreq.
  split; [by rewrite Hreq|].
  assert (step s (B, c) = (perform c B s).1) as Hstep.
  { unfold step. simpl. by destruct (decide (waiting B s)). }
  rewrite Hstep, Hreq in *. simpl in *.
  apply list_elem_of_split in HA as (q1 & q2 & HA).
  destruct (run_behind A B calls (enqueue B match c with
                                            | AcquireShared => shared
                                            | _ => exclusive
                                            end s)) as [Hwf' Hb'].
  - by apply wf_enqueue.
  - exists q1, (q2 ++ [(B, match c with
                           | AcquireShared => shared
                           | _ => exclusive
                           end)]).
    simpl. rewrite HA, <- app_assoc. split; [done|].
    rewrite fmap_app. apply elem_of_app. right. simpl.
    by apply list_elem_of_singleton.
  - done.
  - by apply (behind_waiting A B).
Qed.

(** The scenario of [test_fifo]: thread 1 holds the lock shared, thread 2
    waits for it exclusive, thread 3 asks for it shared; a fourth thread
    asks for it shared as well and thread 1 takes it once more. *)
Lemma C9_fifo_exclusive_waiter_first_witness :
  let s := run [(1%nat, AcquireShared); (2%nat, AcquireExclusive)] init in
  let calls := [(4%nat, AcquireShared); (1%nat, AcquireShared)] in
  (perform AcquireShared 3%nat s).2 = Suspended /\
  waiting 3%nat (run calls (step s (3%nat, AcquireShared))) /\
  ~ holds 3%nat (run calls (step s (3%nat, AcquireShared))).
Proof.
  intros s calls.
  apply (C9_fifo_exclusive_waiter_first s 2%nat 3%nat AcquireShared calls).
  - apply run_wf, init_wf.
  - vm_compute. constructor.
  - vm_compute. intros [H|[x H]]; discriminate.
  - vm_compute. intros H. apply list_elem_of_singleton in H. discriminate.
  - discriminate.
  - intros [|[|[|n]]]; vm_compute; constructor.
Defined.

(** [test_fifo] step by step: the writer gets in before the reader. *)
Example test_fifo :
  let s1 := run [(1%nat, AcquireShared); (2%nat, AcquireExclusive);
                 (3%nat, AcquireShared)] init in
  let s2 := step s1 (1%nat, Release) in
  let s3 := step s2 (2%nat, Release) in
  wait_queue s1 = [(2%nat, exclusive); (3%nat, shared)] /\
  (exclusive_holder s2 = Some (2%nat, 1%positive) /\
   wait_queue s2 = [(3%nat, shared)] /\ shared_holders s2 !! 3%nat = None) /\
  (exclusive_holder s3 = None /\ wait_queue s3 = [] /\
   shared_holders s3 !! 3%nat = Some 1%positive).
Proof. vm_compute. repeat split; reflexivity. Qed.

End RWLockFacts.

(** * More about the protocol detector *)

(** X1.  Before its deadline, a detector on an open dispatcher whose peek
    answers the required bytes ends the call in one of three ways.  A
    detector detects and the address of the peer can be asked:
    [handle_dispatcher] of one detector is called, and [handle_read]
    itself does not close the dispatcher.  No detector detects: the
    dispatcher is closed once and handed to nobody.  A detector detects
    but the peer has reset the connection: [getpeername()] raises
    [ENOTCONN], the exception escapes, and the call has logged nothing,
    handed the dispatcher to nobody and not closed it. *)
Theorem handle_read_in_time_outcomes
    (self : _ProtocolDetector) (d : ref) (w : World) (disp : Dispatcher)
    (data rest : bytes) (ds : list Detector) :
  dispatchers w !! d = Some disp ->
  closed disp = false ->
  pending_error (socket disp) = None ->
  rbuf (socket disp) = data ++ rest ->
  Z.of_nat (length data) = _required_size self ->
  0 < _required_size self ->
  lists w !! _detectors self = Some ds ->
  timed_out self w = false ->
  exists r w' evs,
    _ProtocolDetector.handle_read self d w = (r, w') /\
    trace w' = trace w ++ evs /\
    ((r = Ok tt /\ (d ∉ resets w) /\
      exists det, In det ds /\ detect det data = true /\
                  all_handoffs evs = [(det, d)] /\ closes d evs = 0%nat) \/
     (r = Ok tt /\ Forall (fun x => detect x data = false) ds /\
      all_handoffs evs = [] /\ closes d evs = 1%nat /\
      closed <$> dispatchers w' !! d = Some true) \/
     (r = Raise (SocketError ENOTCONN) /\ (d ∈ resets w) /\
      Exists (fun x => detect x data = true) ds /\
      evs = [] /\ dispatchers w' = dispatchers w)).
Proof.
  intros Hd Hopen Herr Hbuf Hlen Hpos Hds Hin.
  pose proof (peek_prefix _ _ _ _ Herr Hbuf Hlen Hpos) as Hpeek.
  assert ((Z.of_nat (length data) <? _required_size self) = false) as Hfull
    by (apply Z.ltb_ge; lia).
  rewrite (handle_read_full _ _ _ _ _ _ Hd Hpeek Hfull Hds).
  unfold after_deadline_test. rewrite Hin.
  destruct (first_match_or_none data ds)
    as [Hnone|(pre & det & post & -> & Hpre & Hdet)].
  - rewrite (detect_loop_no_match _ _ _ _ _ Hd Hnone).
    eexists _, _, _. split; [done|]. split; [done|]. right. left. simpl.
    rewrite Nat.eqb_refl, lookup_insert_eq. done.
  - rewrite (detect_loop_match _ _ _ _ _ _ _ Hd Hpre Hdet).
    unfold peer_address. rewrite Hopen.
    destruct (decide (d ∈ resets w)) as [Hreset|Hconn].
    + rewrite bool_decide_eq_true_2 by done.
      exists (Raise (SocketError ENOTCONN)), w, [].
      split; [done|]. split; [by rewrite app_nil_r|]. right. right.
      conjuncts; try done.
      apply Exists_exists. exists det. split; [|done].
      apply elem_of_app. right. apply elem_of_cons. by left.
    + rewrite bool_decide_eq_false_2 by done.
      eexists _, _, _. split; [done|]. split; [done|]. left.
      conjuncts; try done. exists det. conjuncts; try done.
      apply in_or_app. right. by left.
Qed.

Lemma handle_read_in_time_outcomes_witness :
  let self := sample_detector 6 10 in
  let w := detecting_world [xhttp; ping] self (b "PINGxx") 3 in
  exists r w' evs,
    _ProtocolDetector.handle_read self 0%nat w = (r, w') /\
    trace w' = [] ++ evs /\
    ((r = Ok tt /\ (0%nat ∉ resets w) /\
      exists det, In det [xhttp; ping] /\ detect det (b "PINGxx") = true /\
                  all_handoffs evs = [(det, 0%nat)] /\
                  closes 0%nat evs = 0%nat) \/
     (r = Ok tt /\
      Forall (fun x => detect x (b "PINGxx") = false) [xhttp; ping] /\
      all_handoffs evs = [] /\ closes 0%nat evs = 1%nat /\
      closed <$> dispatchers w' !! 0%nat = Some true) \/
     (r = Raise (SocketError ENOTCONN) /\ (0%nat ∈ resets w) /\
      Exists (fun x => detect x (b "PINGxx") = true) [xhttp; ping] /\
      evs = [] /\ dispatchers w' = dispatchers w)).
Proof.
  intros self w.
  apply (handle_read_in_time_outcomes self 0%nat w
           {| socket := client_socket (b "PINGxx");
              impl := Some (DetectorImpl self); closed := false |}
           (b "PINGxx") [] [xhttp; ping]); reflexivity.
Defined.

(** The same detector and bytes when the peer has reset the connection
    in the meantime: [ENOTCONN] escapes from [handle_read]. *)
Example handle_read_after_peer_reset :
  let self := sample_detector 6 10 in
  let w := detecting_world [xhttp; ping] self (b "PINGxx") 3 in
  let run := (do! peer_resets 0%nat in
              _ProtocolDetector.handle_read self 0%nat) w in
  run.1 = Raise (SocketError ENOTCONN) /\ trace run.2 = [] /\
  closed <$> dispatchers run.2 !! 0%nat = Some false.
Proof. by vm_compute. Qed.

(** X2.  A socket error other than [EWOULDBLOCK] during the peek is passed
    to [handle_error] of the dispatcher, and [handle_read] does nothing
    of its own: the call is the call of [handle_error], no detector is
    consulted (the list of detectors is not even read) and the clock
    plays no part.  With [handle_error] as the specification has it, the
    events of the call are the call of [handle_error], one record at
    warning level and the close of the dispatcher. *)
Theorem handle_read_hard_error
    (self : _ProtocolDetector) (d : ref) (w : World) (disp : Dispatcher)
    (errno : Z) :
  dispatchers w !! d = Some disp ->
  pending_error (socket disp) = Some errno ->
  errno <> EWOULDBLOCK ->
  _ProtocolDetector.handle_read self d w = Dispatcher.handle_error d w /\
  exists w' logger fmt args,
    Dispatcher.handle_error d w = (Ok tt, w') /\
    trace w' =
      trace w ++ [HandleError d; Log logger WARNING fmt args; Close d] /\
    closed <$> dispatchers w' !! d = Some true /\
    lists w' = lists w /\ clock w' = clock w.
Proof.
  intros Hd Herr Hne.
  rewrite (handle_read_peek_raises self d w disp (SocketError errno) Hd)
    by (unfold peek_result; by rewrite Herr).
  apply Z.eqb_neq in Hne. rewrite Hne.
  rewrite (handle_error_spec _ _ _ Hd). split; [done|].
  eexists _, _, _, _. split; [done|]. simpl.
  by rewrite lookup_insert_eq.
Qed.

Lemma handle_read_hard_error_witness :
  let self := sample_detector 6 10 in
  let disp := {| socket := {| fileno := 7; peername := ("10.0.0.1", 4242);
                              rbuf := b "PINGxx"; eof := false;
                              pending_error := Some 104 |};
                 impl := Some (DetectorImpl self); closed := false |} in
  let w := {| clock := 50; lists := ∅; dispatchers := {[ 0%nat := disp ]};
              reactor := [0%nat]; resets := ∅; trace := [] |} in
  _ProtocolDetector.handle_read self 0%nat w =
    Dispatcher.handle_error 0%nat w /\
  exists w' logger fmt args,
    Dispatcher.handle_error 0%nat w = (Ok tt, w') /\
    trace w' =
      [] ++ [HandleError 0%nat; Log logger WARNING fmt args; Close 0%nat] /\
    closed <$> dispatchers w' !! 0%nat = Some true /\
    lists w' = ∅ /\ clock w' = 50.
Proof.
  intros self disp w.
  apply (handle_read_hard_error self 0%nat w disp 104).
  - reflexivity.
  - reflexivity.
  - discriminate.
Defined.

(** X3.  A call of [handle_read] that hands its dispatcher to nobody
    leaves the clock, the lists of detectors and every other dispatcher
    alone; of its own dispatcher it keeps the socket record and the
    behaviour, and a dispatcher that was closed stays closed. *)
Theorem handle_read_frame
    (self : _ProtocolDetector) (d : ref) (w w' : World) (disp : Dispatcher)
    (r : Result unit) (evs : list event) :
  dispatchers w !! d = Some disp ->
  _ProtocolDetector.handle_read self d w = (r, w') ->
  trace w' = trace w ++ evs ->
  all_handoffs evs = [] ->
  clock w' = clock w /\ lists w' = lists w /\ resets w' = resets w /\
  (forall d', d' <> d -> dispatchers w' !! d' = dispatchers w !! d') /\
  exists disp',
    dispatchers w' !! d = Some disp' /\
    socket disp' = socket disp /\ impl disp' = impl disp /\
    (closed disp = true -> closed disp' = true).
Proof.
  intros Hd Hrun _ _.
  destruct (handle_read_shape self d w disp Hd)
    as (r' & evs' & [(H & _ & _)|[H _]]);
    rewrite H in Hrun; inversion Hrun; subst; simpl.
  - conjuncts; try done. by exists disp.
  - conjuncts; try done.
    + intros d' Hne. by apply lookup_insert_ne.
    + eexists. by rewrite lookup_insert_eq.
Qed.

Lemma handle_read_frame_witness :
  let self := sample_detector 6 10 in
  let w := detecting_world [ping; xhttp] self (b "HELLO!") 30 in
  let w' := (_ProtocolDetector.handle_read self 0%nat w).2 in
  clock w' = 30 /\ lists w' = lists w /\ resets w' = resets w /\
  (forall d', d' <> 0%nat -> dispatchers w' !! d' = dispatchers w !! d') /\
  exists disp',
    dispatchers w' !! 0%nat = Some disp' /\
    socket disp' = client_socket (b "HELLO!") /\
    impl disp' = Some (DetectorImpl self) /\
    (false = true -> closed disp' = true).
Proof.
  intros self w w'.
  apply (handle_read_frame self 0%nat w w'
           {| socket := client_socket (b "HELLO!");
              impl := Some (DetectorImpl self); closed := false |} (Ok tt)
           [Log "ProtocolDetector.Detector" DEBUG
              "Timed out while waiting for data" [];
            Close 0%nat;
            Log "ProtocolDetector.Detector" WARNING
              "Unrecognized protocol: %r" [ArgBytes (b "HELLO!")];
            Close 0%nat]).
  - reflexivity.
  - reflexivity.
  - reflexivity.
  - reflexivity.
Defined.

Lemma add_detector_keeps self detector w w' :
  MultiProtocolAcceptor.add_detector self detector w = (Ok tt, w') ->
  clock w' = clock w /\ resets w' = resets w.
Proof.
  unfold MultiProtocolAcceptor.add_detector, bind, log, emit, get_list,
    set_list. simpl.
  destruct (lists w !! _handlers self); inversion 1; done.
Qed.

(** X4.  The handle keeps the list object of the acceptor, not a copy: a
    detector registered after the handle was created is consulted by the
    handle, after the detectors registered before it, and on the number of
    bytes fixed when the handle was created, however many it requires
    itself.  Before the deadline, on an open dispatcher whose peer has
    not reset the connection, its [handle_dispatcher] is called when it
    alone detects. *)
Theorem late_detector_is_consulted
    (acc : MultiProtocolAcceptor) (self : _ProtocolDetector) (d : ref)
    (w : World) (disp : Dispatcher) (data rest : bytes)
    (ds : list Detector) (late : Detector) :
  _detectors self = _handlers acc ->
  lists w !! _handlers acc = Some ds ->
  dispatchers w !! d = Some disp ->
  closed disp = false ->
  d ∉ resets w ->
  timed_out self w = false ->
  pending_error (socket disp) = None ->
  rbuf (socket disp) = data ++ rest ->
  Z.of_nat (length data) = _required_size self ->
  0 < _required_size self ->
  Forall (fun x => detect x data = false) ds ->
  detect late data = true ->
  exists w1 w2 evs,
    MultiProtocolAcceptor.add_detector acc late w = (Ok tt, w1) /\
    _ProtocolDetector.handle_read self d w1 = (Ok tt, w2) /\
    trace w2 = trace w1 ++ evs /\
    all_handoffs evs = [(late, d)].
Proof.
  intros Halias Hl Hd Hopen Hconn Hin Herr Hbuf Hlen Hpos Hnone Hlate.
  destruct (add_detector_ok acc late w ds Hl) as (w1 & Hadd & Hl1 & Hd1 & _).
  destruct (add_detector_keeps acc late w w1 Hadd) as [Hc1 Hr1].
  exists w1.
  rewrite (first_match_handoff self d w1 disp data rest ds [] late).
  - by eexists _, _.
  - by rewrite Hd1.
  - done.
  - by rewrite Hr1.
  - unfold timed_out in *. by rewrite Hc1.
  - done.
  - done.
  - done.
  - done.
  - rewrite Halias, Hl1. apply lookup_insert_eq.
  - done.
  - done.
Qed.

Lemma late_detector_is_consulted_witness :
  let self := sample_detector 6 10 in
  let long := {| NAME := "long"; REQUIRED_SIZE := 8;
                 detect := startswith (b "LONG") |} in
  let w := detecting_world [ping; xhttp] self (b "LONGxx") 3 in
  exists w1 w2 evs,
    MultiProtocolAcceptor.add_detector (acceptor None 10) long w =
      (Ok tt, w1) /\
    _ProtocolDetector.handle_read self 0%nat w1 = (Ok tt, w2) /\
    trace w2 = trace w1 ++ evs /\
    all_handoffs evs = [(long, 0%nat)].
Proof.
  intros self long w.
  apply (late_detector_is_consulted (acceptor None 10) self 0%nat w
           {| socket := client_socket (b "LONGxx");
              impl := Some (DetectorImpl self); closed := false |}
           (b "LONGxx") [] [ping; xhttp] long);
    try reflexivity.
  - apply not_elem_of_empty.
  - repeat constructor.
Defined.

(** X24.  No call of [handle_read] both closes its dispatcher and hands it
    over: the events of one call hold no [close] and at most one call of
    [handle_dispatcher], or they hold no call of [handle_dispatcher]. *)
Theorem handle_read_never_both
    (self : _ProtocolDetector) (d : ref) (w w' : World) (disp : Dispatcher)
    (r : Result unit) :
  dispatchers w !! d = Some disp ->
  _ProtocolDetector.handle_read self d w = (r, w') ->
  exists evs,
    trace w' = trace w ++ evs /\
    ((closes d evs = 0%nat /\ (length (all_handoffs evs) <= 1)%nat) \/
     all_handoffs evs = []).
Proof.
  intros Hd Hrun.
  destruct (handle_read_shape self d w disp Hd)
    as (r' & evs & [(H & Hc & Hh)|[H Hh]]);
    rewrite H in Hrun; inversion Hrun; subst; exists evs; split; auto.
Qed.

Lemma handle_read_never_both_witness :
  let self := sample_detector 6 10 in
  let w := detecting_world [ping; xhttp] self (b "PINGxx") 11 in
  let w' := (_ProtocolDetector.handle_read self 0%nat w).2 in
  exists evs,
    trace w' = [] ++ evs /\
    ((closes 0%nat evs = 0%nat /\ (length (all_handoffs evs) <= 1)%nat) \/
     all_handoffs evs = []).
Proof.
  intros self w w'.
  apply (handle_read_never_both self 0%nat w w'
           {| socket := client_socket (b "PINGxx");
              impl := Some (DetectorImpl self); closed := false |}
           (Raise (SocketError EBADF))).
  - reflexivity.
  - reflexivity.
Defined.

(** X5.  The required size that the constructor of a handle computes is large
    enough for every detector of the list, and is what one of them
    requires. *)
Theorem required_size_is_the_largest
    (detectors : ref) (timeout : Z) (w : World) (ds : list Detector) :
  lists w !! detectors = Some ds ->
  ds <> [] ->
  exists p w',
    _ProtocolDetector.__init__ detectors (Some timeout) w = (Ok p, w') /\
    Forall (fun x => REQUIRED_SIZE x <= _required_size p) ds /\
    Exists (fun x => REQUIRED_SIZE x = _required_size p) ds.
Proof.
  intros Hl Hne. destruct ds as [|x xs]; [done|].
  rewrite (ProtocolDetector_init_ok _ _ _ _ _ Hl).
  eexists _, _. split; [done|]. simpl.
  destruct (fold_max_spec (map REQUIRED_SIZE xs) (REQUIRED_SIZE x))
    as [Hin Hall].
  split.
  - apply Forall_forall. intros y Hy.
    rewrite Forall_forall in Hall. apply Hall.
    change (REQUIRED_SIZE x :: map REQUIRED_SIZE xs)
      with (REQUIRED_SIZE <$> (x :: xs)).
    by apply list_elem_of_fmap_2.
  - change (REQUIRED_SIZE x :: map REQUIRED_SIZE xs)
      with (map REQUIRED_SIZE (x :: xs)) in Hin.
    apply in_map_iff in Hin as (y & Hy & Hiny).
    apply Exists_exists. exists y. split; [by apply list_elem_of_In|done].
Qed.

Lemma required_size_is_the_largest_witness :
  exists p w',
    _ProtocolDetector.__init__ 0%nat (Some 10) (world0 [ping; xhttp; pi_any])
      = (Ok p, w') /\
    Forall (fun x => REQUIRED_SIZE x <= _required_size p)
      [ping; xhttp; pi_any] /\
    Exists (fun x => REQUIRED_SIZE x = _required_size p)
      [ping; xhttp; pi_any].
Proof.
  apply (required_size_is_the_largest 0%nat 10 (world0 [ping; xhttp; pi_any])
           [ping; xhttp; pi_any]).
  - reflexivity.
  - discriminate.
Defined.

(** * More about the acceptor *)

Lemma fresh_dispatcher_is_new (w : World) :
  dispatchers w !! fresh (dom (dispatchers w)) = None.
Proof. apply not_elem_of_dom, is_fresh. Qed.

(** The store after a TLS acceptor has accepted a client. *)
Lemma handle_accept_tls_run
    (self : MultiProtocolAcceptor) (client : Socket) (w : World)
    (sslctx : nat) :
  _sslctx self = Some sslctx ->
  exists w' d h,
    MultiProtocolAcceptor.handle_accept self client w = (Ok tt, w') /\
    dispatchers w !! d = None /\
    dispatchers w' =
      <[d := {| socket := client; impl := Some (HandshakeImpl h);
                closed := false |}]> (dispatchers w) /\
    ssl_ctx h = sslctx /\ ssl_handshake_finished_handler h = self /\
    reactor w' = reactor w ++ [d] /\
    lists w' = lists w /\ trace w' = trace w /\ clock w' = clock w.
Proof.
  intros Htls. unfold MultiProtocolAcceptor.handle_accept. rewrite Htls.
  eexists _, (fresh (dom (dispatchers w))), _.
  split; [reflexivity|]. simpl.
  split; [apply fresh_dispatcher_is_new|]. by conjuncts.
Qed.

(** X6.  With a TLS context the acceptor registers a handshake handle for the
    client and does not look at its detectors: the call succeeds whatever
    the list of detectors holds, logs nothing and leaves the lists
    alone. *)
Theorem handle_accept_tls
    (self : MultiProtocolAcceptor) (client : Socket) (w : World)
    (sslctx : nat) :
  _sslctx self = Some sslctx ->
  exists w' d h,
    MultiProtocolAcceptor.handle_accept self client w = (Ok tt, w') /\
    dispatchers w !! d = None /\
    dispatchers w' =
      <[d := {| socket := client; impl := Some (HandshakeImpl h);
                closed := false |}]> (dispatchers w) /\
    ssl_ctx h = sslctx /\ ssl_handshake_finished_handler h = self /\
    reactor w' = reactor w ++ [d] /\
    lists w' = lists w /\ trace w' = trace w /\ clock w' = clock w.
Proof.
  intros Htls. unfold MultiProtocolAcceptor.handle_accept. rewrite Htls.
  eexists _, (fresh (dom (dispatchers w))), _.
  split; [reflexivity|]. simpl.
  split; [apply fresh_dispatcher_is_new|]. by conjuncts.
Qed.

Lemma handle_accept_tls_witness :
  exists w' d h,
    MultiProtocolAcceptor.handle_accept (acceptor (Some 1%nat) 10)
      (client_socket []) (world0 []) = (Ok tt, w') /\
    dispatchers (world0 []) !! d = None /\
    dispatchers w' =
      <[d := {| socket := client_socket [];
                impl := Some (HandshakeImpl h);
                closed := false |}]> (dispatchers (world0 [])) /\
    ssl_ctx h = 1%nat /\
    ssl_handshake_finished_handler h = acceptor (Some 1%nat) 10 /\
    reactor w' = [] ++ [d] /\
    lists w' = lists (world0 []) /\ trace w' = [] /\ clock w' = 0.
Proof.
  apply (handle_accept_tls (acceptor (Some 1%nat) 10) (client_socket [])
           (world0 []) 1%nat).
  reflexivity.
Defined.

(** The switch to a detector on an acceptor without detectors: the
    constructor raises before anything is changed. *)
Lemma register_protocol_detector_empty
    (self : MultiProtocolAcceptor) (d : ref) (w : World) :
  lists w !! _handlers self = Some [] ->
  MultiProtocolAcceptor._register_protocol_detector self d w =
    (Raise (ValueError "max() arg is an empty sequence"), w).
Proof.
  intros Hl. unfold MultiProtocolAcceptor._register_protocol_detector.
  unfold bind at 1.
  by rewrite (ProtocolDetector_init_empty _ _ _ Hl).
Qed.

(** X7.  A TLS acceptor without detectors accepts a client all the same; the
    missing detectors show only when the callback it registered with the
    handshake is called on the new handle: [_register_protocol_detector]
    then raises [ValueError] and changes nothing, so the handle keeps its
    handshake behaviour, stays registered and is not closed. *)
Theorem tls_without_detectors_fails_at_switch
    (self : MultiProtocolAcceptor) (client : Socket) (w : World)
    (sslctx : nat) :
  _sslctx self = Some sslctx ->
  lists w !! _handlers self = Some [] ->
  exists w' d h,
    MultiProtocolAcceptor.handle_accept self client w = (Ok tt, w') /\
    dispatchers w' !! d =
      Some {| socket := client; impl := Some (HandshakeImpl h);
              closed := false |} /\
    d ∈ reactor w' /\
    MultiProtocolAcceptor._register_protocol_detector
      (ssl_handshake_finished_handler h) d w' =
      (Raise (ValueError "max() arg is an empty sequence"), w').
Proof.
  intros Htls Hl.
  destruct (handle_accept_tls_run self client w sslctx Htls)
    as (w' & d & h & Hrun & _ & Hdisp & _ & Hself & Hreact & Hlists & _).
  exists w', d, h. split; [done|]. split.
  { rewrite Hdisp. apply lookup_insert_eq. }
  split.
  { rewrite Hreact. apply elem_of_app. right. by apply list_elem_of_singleton. }
  rewrite Hself. apply register_protocol_detector_empty. by rewrite Hlists.
Qed.

Lemma tls_without_detectors_fails_at_switch_witness :
  exists w' d h,
    MultiProtocolAcceptor.handle_accept (acceptor (Some 1%nat) 10)
      (client_socket []) (world0 []) = (Ok tt, w') /\
    dispatchers w' !! d =
      Some {| socket := client_socket []; impl := Some (HandshakeImpl h);
              closed := false |} /\
    d ∈ reactor w' /\
    MultiProtocolAcceptor._register_protocol_detector
      (ssl_handshake_finished_handler h) d w' =
      (Raise (ValueError "max() arg is an empty sequence"), w').
Proof.
  apply (tls_without_detectors_fails_at_switch (acceptor (Some 1%nat) 10)
           (client_socket []) (world0 []) 1%nat); reflexivity.
Defined.

(** The store after a successful switch to a detector. *)
Lemma register_protocol_detector_run self d w disp x xs :
  dispatchers w !! d = Some disp ->
  lists w !! _handlers self = Some (x :: xs) ->
  let size := fold_left Z.max (map REQUIRED_SIZE xs) (REQUIRED_SIZE x) in
  MultiProtocolAcceptor._register_protocol_detector self d w =
  (Ok d,
   {| clock := clock w; lists := lists w;
      dispatchers :=
        <[d := {| socket := socket disp;
                  impl := Some (DetectorImpl
                            {| _detectors := _handlers self;
                               _required_size := size;
                               _give_up_at := clock w + TIMEOUT self |});
                  closed := closed disp |}]> (dispatchers w);
      reactor := reactor w;
      resets := resets w; trace := trace w ++
               [Log _ProtocolDetector.logger DEBUG "Using required_size=%d"
                  [ArgInt size]] |}).
Proof.
  intros Hd Hl size. unfold MultiProtocolAcceptor._register_protocol_detector.
  erewrite bind_ok by (by apply ProtocolDetector_init_ok).
  unfold Dispatcher.switch_implementation.
  erewrite bind_ok; cycle 1.
  { by erewrite bind_ok by (by apply get_dispatcher_ok). }
  done.
Qed.

(** X8.  Accepting a connection, with whatever result, leaves every handle
    that exists as it is, and closes nothing and hands nothing over. *)
Theorem handle_accept_keeps_handles
    (self : MultiProtocolAcceptor) (client : Socket) (w w' : World)
    (r : Result unit) (d : ref) (disp : Dispatcher) :
  MultiProtocolAcceptor.handle_accept self client w = (r, w') ->
  dispatchers w !! d = Some disp ->
  dispatchers w' !! d = Some disp /\
  lists w' = lists w /\ clock w' = clock w /\
  exists evs,
    trace w' = trace w ++ evs /\ all_handoffs evs = [] /\
    forall d', closes d' evs = 0%nat.
Proof.
  intros Hrun Hd.
  pose proof (fresh_dispatcher_is_new w) as Hfresh.
  set (f := fresh (dom (dispatchers w))) in *.
  assert (d <> f) as Hne by (intros ->; congruence).
  revert Hrun. unfold MultiProtocolAcceptor.handle_accept.
  destruct (_sslctx self) as [sslctx|].
  - inversion 1; subst. simpl. rewrite lookup_insert_ne by done.
    conjuncts; try done. exists []. by rewrite app_nil_r.
  - unfold Dispatcher.__init__.
    set (disp0 := {| socket := client; impl := None; closed := false |}).
    set (w0 := {| clock := clock w; lists := lists w;
                  dispatchers := <[f := disp0]> (dispatchers w);
                  reactor := reactor w;
                  resets := resets w; trace := trace w |}).
    assert (new_dispatcher disp0 w = (Ok f, w0)) as Hnew by done.
    erewrite bind_ok by exact Hnew.
    destruct (lists w !! _handlers self) as [[|x xs]|] eqn:Hl.
    + unfold bind at 1.
      rewrite (register_protocol_detector_empty self f w0)
        by done.
      inversion 1; subst. simpl. rewrite lookup_insert_ne by done.
      conjuncts; try done. exists []. by rewrite app_nil_r.
    + erewrite bind_ok; cycle 1.
      { apply (register_protocol_detector_run self f w0 disp0 x xs);
          [apply lookup_insert_eq|done]. }
      inversion 1; subst. simpl.
      rewrite !lookup_insert_ne by done. conjuncts; try done.
      eexists. split; [done|]. done.
    + unfold MultiProtocolAcceptor._register_protocol_detector,
        _ProtocolDetector.__init__, bind, get_list. simpl. rewrite Hl.
      inversion 1; subst. simpl. rewrite lookup_insert_ne by done.
      conjuncts; try done. exists []. by rewrite app_nil_r.
Qed.

Lemma handle_accept_keeps_handles_witness :
  let self := sample_detector 6 10 in
  let w := detecting_world [ping; xhttp] self (b "PI") 3 in
  let w' := (MultiProtocolAcceptor.handle_accept (acceptor None 10)
               (client_socket (b "XHTTP!")) w).2 in
  let disp := {| socket := client_socket (b "PI");
                 impl := Some (DetectorImpl self); closed := false |} in
  dispatchers w' !! 0%nat = Some disp /\
  lists w' = lists w /\ clock w' = 3 /\
  exists evs,
    trace w' = [] ++ evs /\ all_handoffs evs = [] /\
    forall d', closes d' evs = 0%nat.
Proof.
  intros self w w' disp.
  apply (handle_accept_keeps_handles (acceptor None 10)
           (client_socket (b "XHTTP!")) w w' (Ok tt) 0%nat disp).
  - reflexivity.
  - reflexivity.
Defined.






(** * [tests/rwlock_test.py]: the statistics of the fairness test *)

Section StatsFacts.

Import rwlock_test.

Context {float : Type} (true_div : Z -> Z -> option float).

Lemma sorted_lookup_le (l : list Z) :
  StronglySorted Z.le l ->
  forall (i j : nat) (x y : Z),
    (i <= j)%nat -> l !! i = Some x -> l !! j = Some y -> x <= y.
Proof.
  induction 1 as [|a l Hs IH Hall]; intros i j x y Hij Hi Hj; [done|].
  destruct i as [|i], j as [|j]; simpl in *.
  - inversion Hi; inversion Hj; subst. lia.
  - inversion Hi; subst. rewrite Forall_forall in Hall.
    apply Hall. by eapply list_elem_of_lookup_2.
  - lia.
  - eapply (IH i j); [lia|done..].
Qed.

Lemma sum_permutation (l l' : list Z) :
  l ≡ₚ l' -> forall a, fold_left Z.add l a = fold_left Z.add l' a.
Proof.
  induction 1 as [|x l l' _ IH|x y l|l1 l2 l3 _ IH1 _ IH2]; intros a; simpl.
  - done.
  - apply IH.
  - f_equal. lia.
  - by rewrite IH1.
Qed.

Lemma filter_all {A} (P : A -> Prop) `{!forall x, Decision (P x)}
    (l : list A) :
  Forall P l -> filter P l = l.
Proof.
  induction 1 as [|x l Hx _ IH]; [done|].
  rewrite filter_cons_True by done. by rewrite IH.
Qed.

(** X11.  [stats] of the empty sequence raises [ZeroDivisionError].  Of any
    other sequence it raises [OverflowError] when the sum is too large
    to be divided as a float; otherwise it returns, with the quotient of
    the sum by the length, an element [lo] below and an element [hi]
    above every element, and between them as median an element [med]
    such that more than half of the elements are at most [med] and at
    least half of them are at least [med]. *)
Theorem stats_outcome (seq : list Z) :
  match seq with
  | [] => stats true_div seq = Raised ZeroDivisionError
  | _ :: _ =>
    match true_div (fold_left Z.add seq 0) (Z.of_nat (length seq)) with
    | None => stats true_div seq = Raised OverflowError
    | Some avg =>
      exists med lo hi,
        stats true_div seq = Returned (avg, med, lo, hi) /\
        lo <= med <= hi /\
        lo ∈ seq /\ med ∈ seq /\ hi ∈ seq /\
        (forall x, x ∈ seq -> lo <= x <= hi) /\
        (length seq / 2 <
           length (filter (fun x : Z => (x <= med)%Z) seq))%nat /\
        (length seq - length seq / 2 <=
           length (filter (fun x : Z => (med <= x)%Z) seq))%nat
    end
  end.
Proof.
  destruct seq as [|z seq0]; [done|].
  set (seq := z :: seq0).
  pose proof (merge_sort_Permutation Z.le seq) as Hperm.
  pose proof (StronglySorted_merge_sort Z.le seq) as Hsorted.
  unfold stats. set (l := merge_sort Z.le seq) in *.
  pose proof (Permutation_length Hperm) as Hlen.
  assert (length seq = S (length seq0)) as Hn by done.
  set (n := length seq) in *.
  destruct (decide (length l = 0%nat)) as [H0|_]; [lia|].
  assert (n / 2 < n)%nat as Hhalf by (apply Nat.div_lt; lia).
  destruct (lookup_lt_is_Some_2 l (n / 2)%nat) as [med Hmed]; [lia|].
  destruct (lookup_lt_is_Some_2 l 0%nat) as [lo Hlo]; [lia|].
  destruct (lookup_lt_is_Some_2 l (pred n)) as [hi Hhi]; [lia|].
  rewrite (sum_permutation _ _ Hperm), Hlen.
  destruct (true_div (fold_left Z.add seq 0) (Z.of_nat n)) as [avg|]; [|done].
  rewrite Hmed, Hlo, last_lookup, Hlen, Hhi.
  exists med, lo, hi. split; [done|].
  assert (forall i x, l !! i = Some x -> lo <= x <= hi) as Hbounds.
  { intros i x Hx.
    assert (i < n)%nat by (rewrite <- Hlen; by eapply lookup_lt_Some).
    split.
    - eapply (sorted_lookup_le l Hsorted 0%nat i); [lia|done..].
    - eapply (sorted_lookup_le l Hsorted i (pred n)); [lia|done..]. }
  split; [by eapply Hbounds|].
  split; [rewrite <- Hperm; by eapply list_elem_of_lookup_2|].
  split; [rewrite <- Hperm; by eapply list_elem_of_lookup_2|].
  split; [rewrite <- Hperm; by eapply list_elem_of_lookup_2|].
  split.
  { intros x Hx. rewrite <- Hperm in Hx.
    apply list_elem_of_lookup in Hx as [i Hx]. by eapply Hbounds. }
  split.
  - assert (length (filter (fun x : Z => (x <= med)%Z) seq) =
            length (filter (fun x : Z => (x <= med)%Z) l)) as ->
      by (apply Permutation_length; by rewrite Hperm).
    rewrite <- (take_drop (S (n / 2)) l), filter_app, length_app.
    rewrite filter_all.
    + rewrite length_take_le by lia. lia.
    + apply Forall_forall. intros x Hx.
      apply elem_of_take in Hx as (i & Hx & Hi).
      eapply (sorted_lookup_le l Hsorted i (n / 2)%nat); [lia|done..].
  - assert (length (filter (fun x : Z => (med <= x)%Z) seq) =
            length (filter (fun x : Z => (med <= x)%Z) l)) as ->
      by (apply Permutation_length; by rewrite Hperm).
    rewrite <- (take_drop (n / 2) l), filter_app, length_app.
    rewrite (filter_all _ (drop (n / 2) l)).
    + rewrite length_drop. lia.
    + apply Forall_lookup. intros i x Hx. rewrite lookup_drop in Hx.
      eapply (sorted_lookup_le l Hsorted (n / 2)%nat (n / 2 + i)%nat);
        [lia|done..].
Qed.

(** X12.  [stats] sorts before it looks: the order of the sequence does not
    matter. *)
Theorem stats_permutation (seq seq' : list Z) :
  seq ≡ₚ seq' -> stats true_div seq = stats true_div seq'.
Proof.
  intros Hperm. unfold stats.
  assert (merge_sort Z.le seq = merge_sort Z.le seq') as ->; [|done].
  apply (StronglySorted_unique Z.le).
  - apply StronglySorted_merge_sort; apply _.
  - apply StronglySorted_merge_sort; apply _.
  - by rewrite !merge_sort_Permutation.
Qed.

End StatsFacts.

Lemma stats_permutation_witness :
  rwlock_test.stats (fun s n => Some (s, n)) [3; 1; 2] =
  rwlock_test.stats (fun s n => Some (s, n)) [2; 3; 1].
Proof.
  apply (stats_permutation (fun s n => Some (s, n)) [3; 1; 2] [2; 3; 1]).
  apply perm_trans with [3; 2; 1]; [apply perm_skip, perm_swap|].
  apply perm_swap.
Defined.

(** The statistics of the counters 7, 3, 9, 5: the pair of the sum and
    the length stands for their quotient. *)
Example stats_of_counters :
  rwlock_test.stats (fun s n => Some (s, n)) [7; 3; 9; 5] =
  rwlock_test.Returned ((24, 4), 7, 3, 9).
Proof. reflexivity. Qed.

(** A sum that cannot be converted to a float: the division raises and
    [stats] with it. *)
Example stats_overflow :
  rwlock_test.stats
    (fun s n => if 2 ^ 1024 <=? Z.abs s then None else Some (s, n))
    [2 ^ 1024; 1] =
  rwlock_test.Raised rwlock_test.OverflowError.
Proof. reflexivity. Qed.

(** * More about the readers-writer lock

    The properties that the tests of [tests/rwlock_test.py] probe, on the
    lock modelled from the specification. *)

Section RWLockTests.

Import RWLock.

Lemma grant_alone s : exclusive_alone s -> exclusive_alone (grant s).
Proof.
  intros Hs. unfold grant.
  destruct (wait_queue s) as [|[t m] q]; [done|]. destruct m.
  - destruct (exclusive_holder s) eqn:He; [done|].
    destruct (grant_shared ((t, shared) :: q) (shared_holders s)).
    intros t' n u H. discriminate.
  - unfold current_owner_mode.
    destruct (exclusive_holder s) eqn:He; [done|].
    destruct (decide (shared_holders s = ∅)) as [Hempty|]; [|done].
    intros t' n u _ [x Hx]. simpl in Hx. rewrite Hempty in Hx.
    by rewrite lookup_empty in Hx.
Qed.

Lemma acquire_shared_alone t s :
  exclusive_alone s -> exclusive_alone (acquire_shared t s).1.
Proof.
  intros Hs. unfold acquire_shared.
  destruct (shared_holders s !! t) as [n|] eqn:Hn.
  - intros t' n' u He [x Hx]. simpl in *. apply (Hs t' n' u He).
    destruct (decide (u = t)) as [->|Hne]; [by eexists|].
    rewrite lookup_insert_ne in Hx by done. by eexists.
  - destruct (is_exclusive_holder t s) eqn:Hex.
    + intros t' n' u He [x Hx]. simpl in *.
      unfold is_exclusive_holder in Hex. rewrite He in Hex.
      apply bool_decide_eq_true in Hex. subst t'.
      destruct (decide (u = t)) as [->|Hne]; [done|].
      rewrite lookup_insert_ne in Hx by done. apply (Hs t n' u He).
      by eexists.
    + destruct (exclusive_holder s) eqn:He; [done|].
      destruct (has_exclusive_waiter s); [done|].
      intros t' n' u H. simpl in H. congruence.
Qed.

Lemma acquire_exclusive_alone t s :
  exclusive_alone s -> exclusive_alone (acquire_exclusive t s).1.
Proof.
  intros Hs. unfold acquire_exclusive.
  destruct (is_exclusive_holder t s) eqn:Hex.
  - destruct (exclusive_holder s) as [[t' n]|] eqn:He; [|done].
    unfold is_exclusive_holder in Hex. rewrite He in Hex.
    apply bool_decide_eq_true in Hex. subst t'.
    intros t' n' u H Hu. simpl in *. inversion H; subst.
    by apply (Hs t' n u He).
  - destruct (shared_holders s !! t); [done|].
    unfold current_owner_mode.
    destruct (exclusive_holder s) eqn:He; [done|].
    destruct (decide (shared_holders s = ∅)) as [Hempty|]; [|done].
    destruct (wait_queue s); [|done].
    intros t' n' u _ [x Hx]. simpl in Hx. rewrite Hempty in Hx.
    by rewrite lookup_empty in Hx.
Qed.

Lemma release_alone t s :
  exclusive_alone s -> exclusive_alone (release t s).1.
Proof.
  intros Hs. unfold release.
  destruct (is_exclusive_holder t s) eqn:Hex.
  - destruct (exclusive_holder s) as [[t' n]|] eqn:He; [|done].
    unfold is_exclusive_holder in Hex. rewrite He in Hex.
    apply bool_decide_eq_true in Hex. subst t'.
    simpl. apply grant_alone. intros t' n' u H Hu. simpl in *.
    destruct (decrement n); [|done]. inversion H; subst.
    by apply (Hs t' n u He).
  - destruct (shared_holders s !! t) as [n|] eqn:Hn; [|done].
    simpl. apply grant_alone. intros t' n' u H [x Hx]. simpl in *.
    apply (Hs t' n' u H). destruct (decrement n).
    + destruct (decide (u = t)) as [->|Hne]; [by eexists|].
      rewrite lookup_insert_ne in Hx by done. by eexists.
    + apply lookup_delete_Some in Hx as [_ Hx]. by eexists.
Qed.

Lemma step_alone s tc : exclusive_alone s -> exclusive_alone (step s tc).
Proof.
  intros Hs. unfold step. destruct (decide (waiting tc.1 s)); [done|].
  destruct tc as [t []]; simpl.
  - by apply acquire_shared_alone.
  - by apply acquire_exclusive_alone.
  - by apply release_alone.
Qed.

(** X13.  In every state that calls of threads can bring about, a thread that
    holds the lock exclusively holds it alone: whoever else appears among
    the shared holders is that same thread, and a thread that waits holds
    nothing. *)
Theorem exclusive_holder_is_alone (calls : list (identity * call)) :
  exclusive_alone (run calls init) /\ wf (run calls init).
Proof.
  split; [|apply run_wf, init_wf].
  assert (forall s, exclusive_alone s -> exclusive_alone (run calls s)) as H.
  { induction calls as [|tc calls IH]; intros s Hs; [done|].
    simpl. by apply IH, step_alone. }
  apply H. intros t n u He. discriminate.
Qed.

(** The shared waiters at the head of the queue, granted together. *)
Lemma grant_shared_readers (rs : list identity) tail : forall h,
  match tail with (_, shared) :: _ => False | _ => True end ->
  exists h',
    grant_shared (((fun r => (r, shared)) <$> rs) ++ tail) h = (h', tail) /\
    (forall r, r ∈ rs -> h' !! r = Some 1%positive) /\
    (forall u, u ∉ rs -> h' !! u = h !! u).
Proof.
  induction rs as [|r rs IH]; intros h Htail; simpl.
  - exists h. split.
    + by destruct tail as [|[? []] ?].
    + split; [intros r Hr; by apply elem_of_nil in Hr|done].
  - destruct (IH (<[r := 1%positive]> h) Htail) as (h' & Hrun & Hin & Hout).
    exists h'. split; [done|]. split.
    + intros r' Hr'. destruct (decide (r' ∈ rs)) as [Hin'|Hnotin].
      * by apply Hin.
      * apply elem_of_cons in Hr' as [->|Hr']; [|done].
        rewrite Hout by done. apply lookup_insert_eq.
    + intros u Hu. apply not_elem_of_cons in Hu as [Hne Hu].
      rewrite Hout by done. by apply lookup_insert_ne.
Qed.

(** X14.  When a writer that holds the lock once, and nothing else, releases
    it, all the readers waiting at the head of the queue get the lock
    together; a writer waiting behind them stays first in the queue. *)
Theorem release_wakes_all_readers
    (s : state) (t : identity) (rs : list identity)
    (tail : list (identity * lock_mode)) :
  exclusive_holder s = Some (t, 1%positive) ->
  shared_holders s = ∅ ->
  wait_queue s = ((fun r => (r, shared)) <$> rs) ++ tail ->
  rs <> [] ->
  match tail with (_, shared) :: _ => False | _ => True end ->
  exists s',
    release t s = (s', Done) /\
    exclusive_holder s' = None /\
    wait_queue s' = tail /\
    (forall r, r ∈ rs -> shared_holders s' !! r = Some 1%positive) /\
    (forall u, u ∉ rs -> shared_holders s' !! u = None).
Proof.
  intros He Hempty Hq Hrs Htail.
  unfold release, is_exclusive_holder. rewrite He.
  rewrite bool_decide_eq_true_2 by done.
  unfold decrement. simpl. unfold grant. simpl. rewrite Hq.
  destruct rs as [|r rs]; [done|]. rewrite fmap_cons.
  cbn [app grant_shared].
  destruct (grant_shared_readers rs tail
              (<[r := 1%positive]> (shared_holders s)) Htail)
    as (h' & Hrun & Hin & Hout).
  rewrite Hrun. eexists. split; [done|]. simpl.
  split; [done|]. split; [done|]. split.
  - intros r' Hr'. destruct (decide (r' ∈ rs)) as [Hin'|Hnotin].
    + by apply Hin.
    + apply elem_of_cons in Hr' as [->|Hr']; [|done].
      rewrite Hout by done. apply lookup_insert_eq.
  - intros u Hu. apply not_elem_of_cons in Hu as [Hne Hu].
    rewrite Hout by done. rewrite lookup_insert_ne by done.
    by rewrite Hempty, lookup_empty.
Qed.

Lemma release_wakes_all_readers_witness :
  let s := run [(1, AcquireExclusive); (2, AcquireShared);
                (3, AcquireShared); (4, AcquireExclusive)]%nat init in
  exists s',
    release 1%nat s = (s', Done) /\
    exclusive_holder s' = None /\
    wait_queue s' = [(4%nat, exclusive)] /\
    (forall r, r ∈ [2; 3]%nat -> shared_holders s' !! r = Some 1%positive) /\
    (forall u, u ∉ [2; 3]%nat -> shared_holders s' !! u = None).
Proof.
  intros s.
  apply (release_wakes_all_readers s 1%nat [2; 3]%nat
           [(4%nat, exclusive)]).
  - reflexivity.
  - reflexivity.
  - reflexivity.
  - discriminate.
  - exact I.
Defined.

Lemma step_not_waiting s t c :
  wait_queue s = [] -> step s (t, c) = (perform c t s).1.
Proof.
  intros Hq. unfold step. simpl.
  destruct (decide (waiting t s)) as [Hw|]; [|done].
  unfold waiting in Hw. rewrite Hq in Hw. by apply elem_of_nil in Hw.
Qed.

Lemma releases_on_idle t k : run (replicate k (t, Release)) init = init.
Proof.
  induction k as [|k IH]; [done|]. simpl.
  rewrite step_not_waiting by done. simpl.
  unfold release. simpl. by rewrite lookup_empty.
Qed.

Lemma acquire_exclusive_again t n :
  step (held_exclusive t n) (t, AcquireExclusive) =
  held_exclusive t (Pos.succ n).
Proof.
  rewrite step_not_waiting by done. simpl.
  unfold acquire_exclusive, is_exclusive_holder. simpl.
  by rewrite bool_decide_eq_true_2.
Qed.

Lemma release_exclusive_once t n :
  step (held_exclusive t n) (t, Release) =
  if decide (n = 1%positive) then init else held_exclusive t (Pos.pred n).
Proof.
  rewrite step_not_waiting by done. simpl.
  unfold release, is_exclusive_holder. simpl.
  rewrite bool_decide_eq_true_2 by done.
  unfold decrement. by destruct (decide (n = 1%positive)).
Qed.

Lemma acquire_shared_again t n :
  step (held_shared t n) (t, AcquireShared) = held_shared t (Pos.succ n).
Proof.
  rewrite step_not_waiting by done. simpl.
  unfold acquire_shared. simpl. rewrite lookup_singleton_eq.
  unfold set_shared, held_shared. simpl. by rewrite insert_singleton_eq.
Qed.

Lemma release_shared_once t n :
  step (held_shared t n) (t, Release) =
  if decide (n = 1%positive) then init else held_shared t (Pos.pred n).
Proof.
  rewrite step_not_waiting by done. simpl.
  unfold release, is_exclusive_holder. simpl. rewrite lookup_singleton_eq.
  unfold decrement. destruct (decide (n = 1%positive)); simpl.
  - unfold set_shared, grant, init. simpl. by rewrite delete_singleton_eq.
  - unfold set_shared, grant, held_shared. simpl.
    by rewrite insert_singleton_eq.
Qed.

Lemma acquires_nested (held : positive -> state) c t :
  (forall n, step (held n) (t, c) = held (Pos.succ n)) ->
  forall n m, run (replicate n (t, c)) (held m) =
              held (Pos.of_nat (n + Pos.to_nat m)).
Proof.
  intros Hstep. induction n as [|n IH]; intros m; simpl.
  - by rewrite Pos2Nat.id.
  - rewrite Hstep, IH. f_equal.
    rewrite Pos2Nat.inj_succ. f_equal. lia.
Qed.

Lemma releases_nested (held : positive -> state) t :
  (forall n, step (held n) (t, Release) =
             if decide (n = 1%positive) then init else held (Pos.pred n)) ->
  forall k m,
    run (replicate k (t, Release)) (held m) =
    if decide (k < Pos.to_nat m)%nat
    then held (Pos.of_nat (Pos.to_nat m - k)) else init.
Proof.
  intros Hstep. induction k as [|k IH]; intros m; simpl.
  - pose proof (Pos2Nat.is_pos m).
    destruct (decide (0 < Pos.to_nat m)%nat); [|lia].
    by rewrite Nat.sub_0_r, Pos2Nat.id.
  - rewrite Hstep. destruct (decide (m = 1%positive)) as [->|Hm].
    + rewrite releases_on_idle.
      by destruct (decide (S k < Pos.to_nat 1)%nat); [simpl in *; lia|].
    + rewrite IH.
      assert (Pos.to_nat (Pos.pred m) = (Pos.to_nat m - 1)%nat) as ->.
      { rewrite Pos2Nat.inj_pred by lia. lia. }
      destruct (decide (k < Pos.to_nat m - 1)%nat),
               (decide (S k < Pos.to_nat m)%nat); try lia; [|done].
      do 2 f_equal. lia.
Qed.

Lemma outcomes_app l1 : forall l2 s,
  outcomes (l1 ++ l2) s = outcomes l1 s ++ outcomes l2 (run l1 s).
Proof.
  induction l1 as [|tc l1 IH]; intros l2 s; [done|].
  simpl. by rewrite IH.
Qed.

Lemma outcome_not_waiting s t c rest :
  wait_queue s = [] ->
  outcomes ((t, c) :: rest) s =
  (perform c t s).2 :: outcomes rest (step s (t, c)).
Proof.
  intros Hq. simpl.
  destruct (decide (waiting t s)) as [Hw|]; [|done].
  unfold waiting in Hw. rewrite Hq in Hw. by apply elem_of_nil in Hw.
Qed.

Lemma release_outcomes_on_idle t k :
  outcomes (replicate k (t, Release)) init = replicate k ProgrammerError.
Proof.
  induction k as [|k IH]; [done|].
  change (replicate (S k) (t, Release))
    with ((t, Release) :: replicate k (t, Release)).
  rewrite outcome_not_waiting by done.
  change (step init (t, Release))
    with (run (replicate 1 (t, Release)) init).
  rewrite releases_on_idle, IH. simpl.
  unfold release. simpl. by rewrite lookup_empty.
Qed.

Lemma acquire_outcomes (held : positive -> state) c t :
  (forall n, wait_queue (held n) = []) ->
  (forall n, step (held n) (t, c) = held (Pos.succ n)) ->
  (forall n, (perform c t (held n)).2 = Done) ->
  forall n m, outcomes (replicate n (t, c)) (held m) = replicate n Done.
Proof.
  intros Hq Hstep Hdone. induction n as [|n IH]; intros m; [done|].
  change (replicate (S n) (t, c)) with ((t, c) :: replicate n (t, c)).
  rewrite outcome_not_waiting by done.
  by rewrite Hstep, Hdone, IH.
Qed.

Lemma release_outcomes (held : positive -> state) t :
  (forall n, wait_queue (held n) = []) ->
  (forall n, step (held n) (t, Release) =
             if decide (n = 1%positive) then init else held (Pos.pred n)) ->
  (forall n, (release t (held n)).2 = Done) ->
  forall k m,
    outcomes (replicate k (t, Release)) (held m) =
    replicate (k `min` Pos.to_nat m) Done ++
    replicate (k - Pos.to_nat m) ProgrammerError.
Proof.
  intros Hq Hstep Hdone. induction k as [|k IH]; intros m; [done|].
  change (replicate (S k) (t, Release))
    with ((t, Release) :: replicate k (t, Release)).
  rewrite outcome_not_waiting by done.
  rewrite Hstep. simpl perform. rewrite Hdone.
  pose proof (Pos2Nat.is_pos m).
  destruct (decide (m = 1%positive)) as [->|Hm].
  - rewrite release_outcomes_on_idle.
    replace (S k `min` Pos.to_nat 1)%nat with 1%nat by (simpl; lia).
    replace (S k - Pos.to_nat 1)%nat with k by (simpl; lia). done.
  - rewrite IH.
    assert (Pos.to_nat (Pos.pred m) = (Pos.to_nat m - 1)%nat) as ->.
    { rewrite Pos2Nat.inj_pred by lia. lia. }
    replace (S k `min` Pos.to_nat m)%nat
      with (S (k `min` (Pos.to_nat m - 1)))%nat by lia.
    replace (S k - Pos.to_nat m)%nat with (k - (Pos.to_nat m - 1))%nat by lia.
    done.
Qed.

(** X15.  Recursion: a thread that takes an idle lock [n + 1] times in one
    mode and then calls release [k] times is answered every time it
    acquires; it still holds the lock [n + 1 - k] times as long as
    [k <= n]; its first [n + 1] releases return and the last of them
    leaves the lock idle; every further release raises and changes
    nothing. *)
Theorem nested_acquires_need_as_many_releases (t : identity) (n k : nat) :
  (run (replicate (S n) (t, AcquireExclusive) ++ replicate k (t, Release))
     init =
     (if decide (k <= n)%nat
      then held_exclusive t (Pos.of_nat (S n - k)) else init) /\
   outcomes
     (replicate (S n) (t, AcquireExclusive) ++ replicate k (t, Release))
     init =
     replicate (S n) Done ++ replicate (k `min` S n) Done ++
     replicate (k - S n) ProgrammerError) /\
  (run (replicate (S n) (t, AcquireShared) ++ replicate k (t, Release))
     init =
     (if decide (k <= n)%nat
      then held_shared t (Pos.of_nat (S n - k)) else init) /\
   outcomes
     (replicate (S n) (t, AcquireShared) ++ replicate k (t, Release))
     init =
     replicate (S n) Done ++ replicate (k `min` S n) Done ++
     replicate (k - S n) ProgrammerError).
Proof.
  assert (step init (t, AcquireExclusive) = held_exclusive t 1) as Hx.
  { by rewrite step_not_waiting. }
  assert (step init (t, AcquireShared) = held_shared t 1) as Hs.
  { rewrite step_not_waiting by done. simpl.
    unfold acquire_shared, set_shared, held_shared. simpl.
    rewrite lookup_empty. simpl. by rewrite insert_empty. }
  assert (forall c held,
            step init (t, c) = held 1%positive ->
            (forall m, step (held m) (t, c) = held (Pos.succ m)) ->
            run (replicate (S n) (t, c)) init = held (Pos.of_nat (S n)))
    as Hacq.
  { intros c held H1 Hstep.
    change (run (replicate (S n) (t, c)) init)
      with (run (replicate n (t, c)) (step init (t, c))).
    rewrite H1, (acquires_nested held c t Hstep).
    f_equal. simpl. f_equal. lia. }
  assert (Pos.to_nat (Pos.of_nat (S n)) = S n) as Hn
    by (apply Nat2Pos.id; lia).
  split; split.
  - unfold run at 1. rewrite fold_left_app.
    fold (run (replicate (S n) (t, AcquireExclusive)) init).
    rewrite (Hacq _ (held_exclusive t) Hx (acquire_exclusive_again t)).
    fold (run (replicate k (t, Release))
            (held_exclusive t (Pos.of_nat (S n)))).
    rewrite (releases_nested (held_exclusive t) t (release_exclusive_once t)).
    rewrite Hn.
    destruct (decide (k < S n)%nat), (decide (k <= n)%nat); try lia; done.
  - rewrite outcomes_app.
    rewrite (Hacq _ (held_exclusive t) Hx (acquire_exclusive_again t)).
    rewrite (release_outcomes (held_exclusive t) t); [|done|
      apply release_exclusive_once|].
    + rewrite Hn. f_equal.
      change (replicate (S n) (t, AcquireExclusive))
        with ((t, AcquireExclusive) :: replicate n (t, AcquireExclusive)).
      rewrite outcome_not_waiting by done. rewrite Hx.
      rewrite (acquire_outcomes (held_exclusive t) AcquireExclusive t);
        [done|done|apply acquire_exclusive_again|].
      intros m. simpl. unfold acquire_exclusive, is_exclusive_holder. simpl.
      by rewrite bool_decide_eq_true_2.
    + intros m. unfold release, is_exclusive_holder. simpl.
      by rewrite bool_decide_eq_true_2.
  - unfold run at 1. rewrite fold_left_app.
    fold (run (replicate (S n) (t, AcquireShared)) init).
    rewrite (Hacq _ (held_shared t) Hs (acquire_shared_again t)).
    fold (run (replicate k (t, Release)) (held_shared t (Pos.of_nat (S n)))).
    rewrite (releases_nested (held_shared t) t (release_shared_once t)).
    rewrite Hn.
    destruct (decide (k < S n)%nat), (decide (k <= n)%nat); try lia; done.
  - rewrite outcomes_app.
    rewrite (Hacq _ (held_shared t) Hs (acquire_shared_again t)).
    rewrite (release_outcomes (held_shared t) t); [|done|
      apply release_shared_once|].
    + rewrite Hn. f_equal.
      change (replicate (S n) (t, AcquireShared))
        with ((t, AcquireShared) :: replicate n (t, AcquireShared)).
      rewrite outcome_not_waiting by done. rewrite Hs.
      rewrite (acquire_outcomes (held_shared t) AcquireShared t);
        [|done|apply acquire_shared_again|].
      * simpl. unfold acquire_shared. simpl. by rewrite lookup_empty.
      * intros m. simpl. unfold acquire_shared. simpl.
        by rewrite lookup_singleton_eq.
    + intros m. unfold release, is_exclusive_holder. simpl.
      by rewrite lookup_singleton_eq.
Qed.

(** Three nested exclusive acquisitions and five releases: the last two
    releases raise. *)
Example nested_releases_refused :
  outcomes
    (replicate 3 (1%nat, AcquireExclusive) ++ replicate 5 (1%nat, Release))
    init =
  [Done; Done; Done; Done; Done; Done; ProgrammerError; ProgrammerError].
Proof. reflexivity. Qed.

(** X16.  Demotion in front of a waiting writer: the exclusive holder takes
    the lock shared as well and releases once; it then holds the lock
    shared and the writer is still first in the queue.  Its next release
    hands the lock to that writer. *)
Theorem demotion_keeps_writer_waiting
    (t w : identity) (q : list (identity * lock_mode)) :
  let s := {| exclusive_holder := Some (t, 1%positive);
              shared_holders := ∅;
              wait_queue := (w, exclusive) :: q |} in
  let s1 := (acquire_shared t s).1 in
  let s2 := (release t s1).1 in
  (acquire_shared t s).2 = Done /\
  release t s1 =
    ({| exclusive_holder := None; shared_holders := {[ t := 1%positive ]};
        wait_queue := (w, exclusive) :: q |}, Done) /\
  release t s2 =
    ({| exclusive_holder := Some (w, 1%positive); shared_holders := ∅;
        wait_queue := q |}, Done).
Proof.
  intros s s1 s2.
  assert (acquire_shared t s =
          ({| exclusive_holder := Some (t, 1%positive);
              shared_holders := {[ t := 1%positive ]};
              wait_queue := (w, exclusive) :: q |}, Done)) as H1.
  { unfold acquire_shared, is_exclusive_holder, set_shared. simpl.
    rewrite lookup_empty, bool_decide_eq_true_2 by done.
    by rewrite insert_empty. }
  assert (release t s1 =
          ({| exclusive_holder := None;
              shared_holders := {[ t := 1%positive ]};
              wait_queue := (w, exclusive) :: q |}, Done)) as H2.
  { unfold s1. rewrite H1. simpl.
    unfold release, is_exclusive_holder. simpl.
    rewrite bool_decide_eq_true_2 by done.
    unfold decrement, grant, current_owner_mode. simpl.
    destruct (decide ({[t := 1%positive]} = (∅ : gmap identity positive)))
      as [Hempty|]; [|done].
    by apply map_non_empty_singleton in Hempty. }
  split; [by rewrite H1|]. split; [done|].
  unfold s2. rewrite H2. simpl.
  unfold release, is_exclusive_holder. simpl. rewrite lookup_singleton_eq.
  unfold decrement, set_shared, grant, current_owner_mode. simpl.
  rewrite delete_singleton_eq.
  by destruct (decide ((∅ : gmap identity positive) = ∅)).
Qed.

End RWLockTests.

(** * [lib/vdsm/network/link/iface.py] *)

Section IfaceFacts.

Lemma string_length_append (a c : string) :
  String.length (String.append a c) =
  (String.length a + String.length c)%nat.
Proof. induction a as [|x a IH]; simpl; [done|]. by rewrite IH. Qed.

Lemma string_append_empty (a : string) : String.append a "" = a.
Proof.
  induction a as [|x a IH]; [done|].
  change (String x (String.append a "") = String x a). by rewrite IH.
Qed.

Lemma string_length_of_list (l : list Ascii.ascii) :
  String.length (string_of_list_ascii l) = length l.
Proof. induction l as [|x l IH]; simpl; [done|]. by rewrite IH. Qed.

Lemma string_get_in (s : string) : forall n c,
  String.get n s = Some c -> In c (list_ascii_of_string s).
Proof.
  induction s as [|x s IH]; intros n c H; simpl in *; [done|].
  destruct n as [|n]; [left; congruence|right; by eapply IH].
Qed.

Lemma string_get_lt (s : string) : forall n,
  (n < String.length s)%nat -> is_Some (String.get n s).
Proof.
  induction s as [|x s IH]; intros n H; simpl in *; [lia|].
  destruct n as [|n]; [by eexists|]. apply IH. lia.
Qed.

Lemma choice_in (chars : string) (draw : nat) :
  String.length chars <> 0%nat ->
  In (iface.choice chars draw) (list_ascii_of_string chars).
Proof.
  intros Hne. unfold iface.choice.
  destruct (string_get_lt chars (draw mod String.length chars)) as [c Hc].
  { by apply Nat.mod_upper_bound. }
  rewrite Hc. by eapply string_get_in.
Qed.

(** X17.  A prefix that fits in [max_length] is completed to exactly
    [max_length] characters, and the characters added are digits, or
    digits and ASCII letters when [digit_only] is not set, whatever the
    draws. *)
Theorem random_iface_name_fits
    (draws : nat -> nat) (prefix : string) (max_length : Z)
    (digit_only : bool) :
  Z.of_nat (String.length prefix) <= max_length ->
  exists suffix,
    iface.random_iface_name draws prefix max_length digit_only =
      String.append prefix suffix /\
    Z.of_nat (String.length
                (iface.random_iface_name draws prefix max_length digit_only))
      = max_length /\
    Forall (fun c =>
              In c (list_ascii_of_string
                      (if digit_only then iface.digits
                       else String.append iface.digits iface.ascii_letters)))
      (list_ascii_of_string suffix).
Proof.
  intros Hfit. unfold iface.random_iface_name. eexists.
  split; [reflexivity|]. split.
  - rewrite string_length_append, string_length_of_list.
    rewrite length_map, length_seq. lia.
  - rewrite list_ascii_of_string_of_list_ascii.
    apply Forall_forall. intros c Hc.
    apply list_elem_of_fmap in Hc as (i & -> & _).
    destruct digit_only; simpl negb; cbv iota; by apply choice_in.
Qed.

Lemma random_iface_name_fits_witness :
  exists suffix,
    iface.random_iface_name (fun i => (7 * i + 3)%nat) "dummy_" 15 false =
      String.append "dummy_" suffix /\
    Z.of_nat (String.length
                (iface.random_iface_name (fun i => (7 * i + 3)%nat)
                   "dummy_" 15 false)) = 15 /\
    Forall (fun c =>
              In c (list_ascii_of_string
                      (String.append iface.digits iface.ascii_letters)))
      (list_ascii_of_string suffix).
Proof.
  apply (random_iface_name_fits (fun i => (7 * i + 3)%nat) "dummy_" 15 false).
  vm_compute. discriminate.
Defined.

(** X18.  A prefix that is as long as [max_length] or longer is returned as it
    is: the bound is not applied to the prefix, and no draw is made. *)
Theorem random_iface_name_long_prefix
    (draws : nat -> nat) (prefix : string) (max_length : Z)
    (digit_only : bool) :
  max_length <= Z.of_nat (String.length prefix) ->
  iface.random_iface_name draws prefix max_length digit_only = prefix.
Proof.
  intros Hlong. unfold iface.random_iface_name.
  replace (Z.to_nat (max_length - Z.of_nat (String.length prefix)))
    with 0%nat by lia.
  apply string_append_empty.
Qed.

Lemma random_iface_name_long_prefix_witness :
  iface.random_iface_name (fun i => i) "a_very_long_device_prefix" 15 true =
  "a_very_long_device_prefix".
Proof.
  apply (random_iface_name_long_prefix (fun i => i)
           "a_very_long_device_prefix" 15 true).
  vm_compute. discriminate.
Defined.

(** X19.  The factory always answers an interface with the device, the VF id
    and the dpdk flag it was given.  The attributes are constant only as
    far as their truth value goes: assigning the device again is refused
    unless the name is empty, assigning the VF id again is refused unless
    the id is [None] or 0. *)
Theorem iface_constant_attributes
    (env : iface.Env) (device : string) (vfid : option Z) :
  exists obj,
    iface.iface env device vfid = iface.Returns obj /\
    iface._dev obj = Some device /\
    iface._vfid obj = vfid /\
    iface._is_dpdk_type obj = Some (iface.is_dpdk env device) /\
    (forall d,
       (exists m, iface.IfaceHybrid.set_device obj d =
                  iface.Raises (iface.AttributeError m)) <->
       device <> "") /\
    (forall v,
       (exists m, iface.IfaceHybrid.set_vfid obj v =
                  iface.Raises (iface.AttributeError m)) <->
       exists n, vfid = Some n /\ n <> 0).
Proof.
  eexists. split; [reflexivity|]. simpl. conjuncts; try done.
  - intros d. unfold iface.IfaceHybrid.set_device. simpl.
    destruct (String.eqb_spec device "") as [->|Hne]; simpl.
    + split; [intros [m H]; discriminate|done].
    + split; [done|]. intros _. by eexists.
  - intros v. unfold iface.IfaceHybrid.set_vfid. simpl.
    destruct vfid as [n|].
    + destruct (Z.eqb_spec n 0) as [->|Hne]; simpl.
      * split; [intros [m H]; discriminate|].
        intros (n & Hn & Hne). congruence.
      * split; [intros _; by exists n|]. intros _. by eexists.
    + split; [intros [m H]; discriminate|].
      intros (n & Hn & _). discriminate.
Qed.

(** X20.  [type()] computes the alternative type before it looks into the
    properties: when the alternative detection raises, [type()] raises
    too, although the properties name a type; [list()] asks for the
    alternative only when the type is missing and yields such a link as
    it is. *)
Theorem type_computes_alternative_first
    (env : iface.Env) (self : iface.IfaceHybrid) (dev : string)
    (info : gmap string iface.value) (t : iface.value) (e : iface.exn) :
  iface.properties env self = iface.Returns info ->
  iface._dev self = Some dev ->
  info !! "type" = Some t ->
  iface.get_alternative_type env dev = iface.Raises e ->
  iface.type_ env self = iface.Raises e /\
  iface.with_type env info = iface.Returns info.
Proof.
  intros Hprops Hdev Ht Halt. unfold iface.type_, iface.with_type.
  by rewrite Hprops, Hdev, Halt, Ht.
Qed.

Lemma type_computes_alternative_first_witness :
  let info : gmap string iface.value :=
    {[ "name" := iface.VStr "br0"; "type" := iface.VStr "bridge" ]} in
  let env :=
    {| iface.path_exists := fun _ => false;
       iface.driver_name := fun _ => iface.Raises (iface.IOError 5);
       iface.is_dpdk := fun _ => false;
       iface.get_link := fun _ => info;
       iface.link_info := fun _ _ => ∅;
       iface.iter_links := [info];
       iface.get_dpdk_devices := [] |} in
  let self := {| iface._dev := Some "br0"; iface._vfid := None;
                 iface._is_dpdk_type := Some false |} in
  iface.type_ env self = iface.Raises (iface.IOError 5) /\
  iface.with_type env info = iface.Returns info.
Proof.
  intros info env self.
  apply (type_computes_alternative_first env self "br0" info
           (iface.VStr "bridge") (iface.IOError 5)); reflexivity.
Defined.

(** One link of [list()]: it goes out as it came in when it names a
    type, and with nothing but a type added when it does not. *)
Lemma with_type_spec env (p p' : gmap string iface.value) :
  iface.with_type env p = iface.Returns p' ->
  is_Some (p' !! "type") /\
  (p' = p \/ (p !! "type" = None /\
              exists v, p' = <["type" := v]> p)).
Proof.
  unfold iface.with_type. destruct (p !! "type") as [t|] eqn:Ht.
  - inversion 1; subst. split; [by eexists|by left].
  - destruct (p !! "name") as [[|name|]|]; try discriminate.
    destruct (iface.get_alternative_type env name); [|discriminate].
    inversion 1; subst. split.
    + rewrite lookup_insert_eq. by eexists.
    + right. split; [done|by eexists].
Qed.

Lemma list_loop_spec env links : forall yielded e,
  iface.list_loop env links = (yielded, e) ->
  Forall2 (fun src p' =>
             exists p, src = iface.Returns p /\
                       iface.with_type env p = iface.Returns p')
    (take (length yielded) links) yielded /\
  (e = None -> length yielded = length links).
Proof.
  induction links as [|[p|e0] links IH]; intros yielded e; simpl.
  - inversion 1; subst. split; [constructor|done].
  - destruct (iface.with_type env p) as [p'|e1] eqn:Hp.
    + destruct (iface.list_loop env links) as [ys e2].
      inversion 1; subst. destruct (IH ys e eq_refl) as [Hall Hlen].
      split; [|intros He; simpl; by rewrite Hlen].
      simpl. constructor; [by exists p|done].
    + inversion 1; subst. split; [constructor|done].
  - inversion 1; subst. split; [constructor|done].
Qed.

(** X21.  Every link that [list()] yields names a type.  The links come in the
    order of the sources, those of netlink before those of dpdk, each
    one as its source gave it or with only the type added; and when the
    generator ends without an exception, none is missing. *)
Theorem list_yields_typed_links
    (env : iface.Env) (yielded : list (gmap string iface.value))
    (e : option iface.exn) :
  iface.list env = (yielded, e) ->
  Forall (fun p => is_Some (p !! "type")) yielded /\
  Forall2 (fun src p' =>
             exists p, src = iface.Returns p /\
                       (p' = p \/ (p !! "type" = None /\
                                   exists v, p' = <["type" := v]> p)))
    (take (length yielded) (iface.chained_links env)) yielded /\
  (e = None ->
   length yielded =
   (length (iface.iter_links env) +
    length (iface.get_dpdk_devices env))%nat).
Proof.
  intros Hrun. unfold iface.list in Hrun.
  destruct (list_loop_spec env _ _ _ Hrun) as [Hall Hlen].
  split; [|split].
  - apply Forall_forall. intros p' Hp'.
    apply list_elem_of_lookup in Hp' as [i Hi].
    destruct (Forall2_lookup_r _ _ _ _ _ Hall Hi) as (src & _ & p & _ & Hp).
    by apply (with_type_spec env p p').
  - eapply Forall2_impl; [exact Hall|].
    intros src p' (p & -> & Hp). exists p. split; [done|].
    by apply (with_type_spec env p p').
  - intros He. rewrite (Hlen He). unfold iface.chained_links.
    by rewrite length_app, !length_map.
Qed.

Lemma list_yields_typed_links_witness :
  let eth : gmap string iface.value :=
    {[ "name" := iface.VStr "eth0" ]} in
  let br : gmap string iface.value :=
    {[ "name" := iface.VStr "br0"; "type" := iface.VStr "bridge" ]} in
  let env :=
    {| iface.path_exists := fun _ => false;
       iface.driver_name := fun _ => iface.Returns "e1000";
       iface.is_dpdk := fun _ => false;
       iface.get_link := fun _ => ∅;
       iface.link_info :=
         fun name _ => {[ "name" := iface.VStr (default "" name);
                          "type" := iface.VStr "dpdk" ]};
       iface.iter_links := [eth; br];
       iface.get_dpdk_devices :=
         [("dpdk0", {[ "pci_addr" := iface.VStr "0000:02:00.1" ]})] |} in
  let yielded := (iface.list env).1 in
  Forall (fun p => is_Some (p !! "type")) yielded /\
  Forall2 (fun src p' =>
             exists p, src = iface.Returns p /\
                       (p' = p \/ (p !! "type" = None /\
                                   exists v, p' = <["type" := v]> p)))
    (take (length yielded) (iface.chained_links env)) yielded /\
  ((None : option iface.exn) = None -> length yielded = (2 + 1)%nat).
Proof.
  intros eth br env yielded.
  apply (list_yields_typed_links env yielded None).
  reflexivity.
Defined.

End IfaceFacts.

(** * [lib/vdsm/tool/config_lvm_filter.py] *)

Section ConfigLvmFilterFacts.

Import config_lvm_filter.

Lemma print_mounts_quiet (mounts : list Mount) :
  List.filter is_write (concat (map print_mount mounts)) = [] /\
  List.filter is_question (concat (map print_mount mounts)) = [].
Proof.
  induction mounts as [|m mounts [IHw IHq]]; [done|].
  simpl. by rewrite IHw, IHq.
Qed.

Ltac quiet_report :=
  unfold writes, questions;
  rewrite ?List.filter_app; simpl;
  rewrite ?(proj1 (print_mounts_quiet _)), ?(proj2 (print_mounts_quiet _));
  simpl;
  repeat match goal with
         | |- context [match ?x with _ => _ end] => destruct x; simpl
         end.

(** X22.  [main] changes the host only when the advice is to configure and
    the user passed [--assume-yes] or confirmed; it then writes the
    multipath blacklist, sets the filter of the advice and saves, in this
    order, and nothing more.  In every other case nothing is written. *)
Theorem main_writes_only_when_agreed (env : Env) (assume_yes : bool) :
  let advice :=
    analyze env (getlist env "devices" "filter")
      (build_filter env (find_lvm_mounts env)) (read_blacklist env)
      (find_wwids env (find_lvm_mounts env)) in
  writes (main env assume_yes).1 =
  match advice_action advice with
  | CONFIGURE =>
    if assume_yes || confirm env "Configure host? [yes,NO] " then
      [ConfigureBlacklist (advice_wwids advice);
       SetList "devices" "filter" (advice_filter advice);
       Save]
    else []
  | _ => []
  end.
Proof.
  intros advice. unfold main. fold advice.
  destruct (advice_action advice); [done| | |];
    destruct assume_yes; simpl;
    try destruct (confirm env "Configure host? [yes,NO] "); simpl;
    quiet_report; done.
Qed.

(** X23.  The value [main] returns: [NEEDS_CONFIG] exactly when the advice is
    to configure and the user, asked because [--assume-yes] was not
    given, declined; [CANNOT_CONFIG] exactly when the advice is only a
    recommendation; nothing otherwise.  The user is asked once, and only
    in the first situation or before a configuration without
    [--assume-yes]. *)
Theorem main_return_code (env : Env) (assume_yes : bool) :
  let advice :=
    analyze env (getlist env "devices" "filter")
      (build_filter env (find_lvm_mounts env)) (read_blacklist env)
      (find_wwids env (find_lvm_mounts env)) in
  (main env assume_yes).2 =
    match advice_action advice with
    | CONFIGURE =>
      if assume_yes || confirm env "Configure host? [yes,NO] " then None
      else Some NEEDS_CONFIG
    | RECOMMEND => Some CANNOT_CONFIG
    | _ => None
    end /\
  questions (main env assume_yes).1 =
    match advice_action advice with
    | CONFIGURE =>
      if assume_yes then [] else [Confirm "Configure host? [yes,NO] "]
    | _ => []
    end.
Proof.
  intros advice. unfold main. fold advice.
  destruct (advice_action advice); [done| | |];
    destruct assume_yes; simpl;
    try destruct (confirm env "Configure host? [yes,NO] "); simpl;
    (split; [done|]); quiet_report; done.
Qed.

End ConfigLvmFilterFacts.
